(** * fn: generic slice helpers (Go package [fn], file fn.go)

    A shallow embedding of the functions of fn.go and proofs of their
    contracts.

    Go values are modelled as follows.
    - [int] is [Z].  The only integer arithmetic of the package is on
      lengths and indices ([len(a)-1], [left+1], [right-1], [n++]), all
      within [-1 .. len], so no operation of the package can wrap around.
    - A slice is the window it opens on its backing array: the elements
      [0 .. len) followed by the cells [len .. cap) that the slice can still
      reach by re-slicing.  A function that writes through the slice returns
      the window with its new contents; what the caller's variable sees
      afterwards is the first [len] cells of that window.
    - A run-time panic (index or slice bounds out of range) is the outcome
      [Panic]; a loop that has not finished when its iteration allowance is
      used up is the outcome [OutOfFuel].
    - [map[T]struct{}] is a finite set, [gset T]. *)

From stdpp Require Import base list gmap sets.
From Stdlib Require Import ZArith Lia.

#[local] Set Warnings "-clear-no-such-hyp".

(** ** Outcomes of a call *)

Inductive outcome (A : Type) : Type :=
  | Ok (a : A)
  | Panic
  | OutOfFuel.
Arguments Ok {A} a.
Arguments Panic {A}.
Arguments OutOfFuel {A}.

#[global] Instance outcome_ret : MRet outcome := λ A a, Ok a.
#[global] Instance outcome_bind : MBind outcome := λ A B f m,
  match m with
  | Ok a => f a
  | Panic => Panic
  | OutOfFuel => OutOfFuel
  end.

(** The zero value of a Go type ([var zero T]). *)
Class ZeroValue (T : Type) := zero : T.
#[global] Instance Z_zero : ZeroValue Z := 0%Z.
#[global] Instance bool_zero : ZeroValue bool := false.

(** ** Slices *)

Record goslice (T : Type) : Type := Slice {
  elems : list T;   (* cells 0 .. len-1 *)
  spare : list T    (* cells len .. cap-1 of the same backing array *)
}.
Arguments Slice {T} elems spare.
Arguments elems {T} _.
Arguments spare {T} _.

Section SliceOps.
Context {T : Type}.
Implicit Types (s : goslice T) (i lo hi max : Z) (v : T).

Definition backing s : list T := elems s ++ spare s.
Definition len s : Z := Z.of_nat (length (elems s)).
Definition cap s : Z := Z.of_nat (length (backing s)).

(** [s[i]]: panics unless [0 <= i < len(s)]. *)
Definition index s i : outcome T :=
  if decide (0 ≤ i < len s)%Z then
    match elems s !! Z.to_nat i with
    | Some v => Ok v
    | None => Panic
    end
  else Panic.

(** [s[i] = v]: panics unless [0 <= i < len(s)]. *)
Definition assign s i v : outcome (goslice T) :=
  if decide (0 ≤ i < len s)%Z then
    Ok (Slice (<[Z.to_nat i := v]> (elems s)) (spare s))
  else Panic.

(** [s[lo:hi]]: panics unless [0 <= lo <= hi <= cap(s)]. *)
Definition reslice s lo hi : outcome (goslice T) :=
  if decide (0 ≤ lo ∧ lo ≤ hi ∧ hi ≤ cap s)%Z then
    Ok (Slice (take (Z.to_nat (hi - lo)) (drop (Z.to_nat lo) (backing s)))
              (drop (Z.to_nat hi) (backing s)))
  else Panic.

(** [s[lo:hi:max]]: panics unless [0 <= lo <= hi <= max <= cap(s)]; the
    result can reach the cells up to [max] only. *)
Definition reslice3 s lo hi max : outcome (goslice T) :=
  if decide (0 ≤ lo ∧ lo ≤ hi ∧ hi ≤ max ∧ max ≤ cap s)%Z then
    Ok (Slice (take (Z.to_nat (hi - lo)) (drop (Z.to_nat lo) (backing s)))
              (take (Z.to_nat (max - hi)) (drop (Z.to_nat hi) (backing s))))
  else Panic.

(** [make([]T, 0, n)]: no element, [n] zeroed cells in reserve. *)
Definition make0 `{!ZeroValue T} (n : nat) : goslice T :=
  Slice [] (replicate n zero).

(** [append(s, v)].  With room left the next cell of the backing array is
    overwritten; otherwise the run time moves the elements to a larger array,
    whose extra room [grow (len s)] is the run time's choice. *)
Definition append `{!ZeroValue T} (grow : nat → nat) s v : goslice T :=
  match spare s with
  | _ :: sp => Slice (elems s ++ [v]) sp
  | [] => Slice (elems s ++ [v]) (replicate (grow (length (elems s))) zero)
  end.

(** What a variable that held a slice of length [n] on the same backing
    array reads after the call that returned [s]. *)
Definition seen_by_caller (n : nat) s : list T := take n (backing s).
End SliceOps.

(** ** The functions of fn.go *)

(** [func Clamp[T cmp.Ordered](value, min, max T) T].  [cmp.Ordered] gives the
    type its [<]; [a > b] is [b < a].  Nothing is assumed of the order (for
    floating point numbers it is not total). *)
Section Clamp.
Context {T : Type} (lt : T → T → bool).

Definition Clamp (value min max : T) : T :=
  if lt value min then min
  else if lt max value then max
  else value.
End Clamp.

Section Any.
Context {T : Type}.

(** [func Limit[T any](slice []T, n int) []T] *)
Definition Limit (slice : goslice T) (n : Z) : outcome (goslice T) :=
  reslice slice 0 (Z.min (len slice) n).

(** [func Reduce[T, R any](slice []T, initial R, f func(R, T) R) R] *)
Fixpoint Reduce_loop {R : Type} (todo : nat) (i : Z) (slice : goslice T)
    (result : R) (f : R → T → R) : outcome R :=
  match todo with
  | O => Ok result
  | S todo =>
      x ← index slice i;
      Reduce_loop todo (i + 1) slice (f result x) f
  end.

Definition Reduce {R : Type} (slice : goslice T) (initial : R)
    (f : R → T → R) : outcome R :=
  Reduce_loop (length (elems slice)) 0 slice initial f.

(** [func Reverse[T any](a []T)].  The function returns nothing; the model
    returns the slice with the contents the call leaves in the array. *)
Fixpoint Reverse_loop (fuel : nat) (left right : Z) (a : goslice T)
    : outcome (goslice T) :=
  if decide (left < right)%Z then
    match fuel with
    | O => OutOfFuel
    | S fuel =>
        (* a[left], a[right] = a[right], a[left] *)
        y ← index a right;
        x ← index a left;
        a ← assign a left y;
        a ← assign a right x;
        Reverse_loop fuel (left + 1) (right - 1) a
    end
  else Ok a.

Definition Reverse (a : goslice T) : outcome (goslice T) :=
  Reverse_loop (length (elems a)) 0 (len a - 1) a.

(** [[][]T]: a slice of slices is either [nil] ([None]) or holds the list of
    its elements; its capacity is left out, nothing reads it. *)
Definition batches_append (batches : option (list (goslice T)))
    (b : goslice T) : option (list (goslice T)) :=
  Some (default [] batches ++ [b]).

(** [func Batch[T any](slice []T, batchSize int) [][]T] *)
Fixpoint Batch_loop (fuel : nat) (slice : goslice T) (batchSize : Z)
    (batches : option (list (goslice T)))
    : outcome (goslice T * option (list (goslice T))) :=
  if decide (batchSize < len slice)%Z then
    match fuel with
    | O => OutOfFuel
    | S fuel =>
        rest ← reslice slice batchSize (len slice);
        chunk ← reslice3 slice 0 batchSize batchSize;
        Batch_loop fuel rest batchSize (batches_append batches chunk)
    end
  else Ok (slice, batches).

Definition Batch (slice : goslice T) (batchSize : Z)
    : outcome (option (list (goslice T))) :=
  if decide (batchSize ≤ 0)%Z then Ok None
  else
    '(slice, batches) ← Batch_loop (length (elems slice)) slice batchSize None;
    if decide (len slice > 0)%Z then Ok (batches_append batches slice)
    else Ok batches.

Section WithZero.
Context `{!ZeroValue T}.

(** [func Filter[T any](slice []T, pred func(T) bool) []T]; [grow] is the
    run time's growth policy for [append]. *)
Fixpoint Filter_loop (grow : nat → nat) (todo : nat) (i : Z)
    (slice : goslice T) (pred : T → bool) (result : goslice T)
    : outcome (goslice T) :=
  match todo with
  | O => Ok result
  | S todo =>
      x ← index slice i;
      if pred x then
        Filter_loop grow todo (i + 1) slice pred (append grow result x)
      else Filter_loop grow todo (i + 1) slice pred result
  end.

Definition Filter (grow : nat → nat) (slice : goslice T) (pred : T → bool)
    : outcome (goslice T) :=
  Filter_loop grow (length (elems slice)) 0 slice pred
    (make0 (length (elems slice))).

(** [func First[T any](slice []T, pred func(T) bool) (T, bool)].  The loop
    yields [Some x] when it returns from inside. *)
Fixpoint First_loop (todo : nat) (i : Z) (slice : goslice T)
    (pred : T → bool) : outcome (option T) :=
  match todo with
  | O => Ok None
  | S todo =>
      x ← index slice i;
      if pred x then Ok (Some x)
      else First_loop todo (i + 1) slice pred
  end.

Definition First (slice : goslice T) (pred : T → bool) : outcome (T * bool) :=
  r ← First_loop (length (elems slice)) 0 slice pred;
  match r with
  | Some x => Ok (x, true)
  | None => Ok (zero, false)
  end.

(** Package [slices] of the Go standard library (Go 1.22 and later):
    [IndexFunc], the built-in [clear] applied to [s[i:]], [DeleteFunc]. *)
Fixpoint IndexFunc_loop (todo : nat) (i : Z) (s : goslice T)
    (f : T → bool) : outcome Z :=
  match todo with
  | O => Ok (-1)%Z
  | S todo =>
      x ← index s i;
      if f x then Ok i else IndexFunc_loop todo (i + 1) s f
  end.

Definition IndexFunc (s : goslice T) (f : T → bool) : outcome Z :=
  IndexFunc_loop (length (elems s)) 0 s f.

Definition clear_from (s : goslice T) (i : Z) : outcome (goslice T) :=
  tail ← reslice s i (len s);
  Ok (Slice (take (Z.to_nat i) (elems s)
               ++ replicate (length (elems tail)) zero)
            (spare s)).

Fixpoint DeleteFunc_loop (fuel : nat) (j i : Z) (s : goslice T)
    (del : T → bool) : outcome (Z * goslice T) :=
  if decide (j < len s)%Z then
    match fuel with
    | O => OutOfFuel
    | S fuel =>
        v ← index s j;
        if negb (del v) then
          s ← assign s i v;
          DeleteFunc_loop fuel (j + 1) (i + 1) s del
        else DeleteFunc_loop fuel (j + 1) i s del
    end
  else Ok (i, s).

Definition DeleteFunc (s : goslice T) (del : T → bool)
    : outcome (goslice T) :=
  i ← IndexFunc s del;
  if decide (i = -1)%Z then Ok s
  else
    '(i, s) ← DeleteFunc_loop (length (elems s)) (i + 1) i s del;
    s ← clear_from s i;
    reslice s 0 i.
End WithZero.
End Any.

Section Comparable.
Context `{Countable T} `{!ZeroValue T}.

(** [func Unique[T comparable](slice []T) []T] *)
Fixpoint Unique_loop (todo : nat) (i n : Z) (seen : gset T)
    (slice : goslice T) : outcome (Z * goslice T) :=
  match todo with
  | O => Ok (n, slice)
  | S todo =>
      v ← index slice i;
      if decide (v ∈ seen) then Unique_loop todo (i + 1) n seen slice
      else
        slice ← assign slice n v;
        Unique_loop todo (i + 1) (n + 1) ({[v]} ∪ seen) slice
  end.

Fixpoint Unique_clear (fuel : nat) (i : Z) (slice : goslice T)
    : outcome (goslice T) :=
  if decide (i < len slice)%Z then
    match fuel with
    | O => OutOfFuel
    | S fuel =>
        slice ← assign slice i zero;
        Unique_clear fuel (i + 1) slice
    end
  else Ok slice.

Definition Unique (slice : goslice T) : outcome (goslice T) :=
  if decide (len slice ≤ 1)%Z then Ok slice
  else
    '(n, slice) ← Unique_loop (length (elems slice)) 0 0 ∅ slice;
    slice ← Unique_clear (length (elems slice)) n slice;
    reslice slice 0 n.

(** [func Delete[T comparable](slice []T, value T) []T] *)
Definition Delete (slice : goslice T) (value : T) : outcome (goslice T) :=
  DeleteFunc slice (λ el, bool_decide (el = value)).
End Comparable.

(** ** The other functions of fn.go *)

Section Others.
Context {T : Type}.

(** [make([]R, n)]: [n] zeroed elements and no cell in reserve. *)
Definition make_len {R : Type} `{!ZeroValue R} (n : nat) : goslice R :=
  Slice (replicate n zero) [].

(** [func Map[T, R any](slice []T, f func(T) R) []R] *)
Fixpoint Map_loop {R : Type} (todo : nat) (i : Z) (slice : goslice T)
    (f : T → R) (result : goslice R) : outcome (goslice R) :=
  match todo with
  | O => Ok result
  | S todo =>
      v ← index slice i;
      result ← assign result i (f v);
      Map_loop todo (i + 1) slice f result
  end.

Definition Map {R : Type} `{!ZeroValue R} (slice : goslice T) (f : T → R)
    : outcome (goslice R) :=
  Map_loop (length (elems slice)) 0 slice f (make_len (length (elems slice))).

(** [func MapIndexed[T, R any](slice []T, f func(int, T) R) []R] *)
Fixpoint MapIndexed_loop {R : Type} (todo : nat) (i : Z) (slice : goslice T)
    (f : Z → T → R) (result : goslice R) : outcome (goslice R) :=
  match todo with
  | O => Ok result
  | S todo =>
      v ← index slice i;
      result ← assign result i (f i v);
      MapIndexed_loop todo (i + 1) slice f result
  end.

Definition MapIndexed {R : Type} `{!ZeroValue R} (slice : goslice T)
    (f : Z → T → R) : outcome (goslice R) :=
  MapIndexed_loop (length (elems slice)) 0 slice f
    (make_len (length (elems slice))).

(** [slices.ContainsFunc] of the Go standard library:
    [IndexFunc(s, f) >= 0]. *)
Definition ContainsFunc (s : goslice T) (f : T → bool) : outcome bool :=
  i ← IndexFunc s f;
  Ok (bool_decide (0 ≤ i)%Z).

(** [func Any[T any](slice []T, pred func(T) bool) bool] *)
Definition Any (slice : goslice T) (pred : T → bool) : outcome bool :=
  ContainsFunc slice pred.

(** [func All[T any](slice []T, pred func(T) bool) bool].  The loop yields
    [Some b] when it returns [b] from inside. *)
Fixpoint All_loop (todo : nat) (i : Z) (slice : goslice T) (pred : T → bool)
    : outcome (option bool) :=
  match todo with
  | O => Ok None
  | S todo =>
      v ← index slice i;
      if negb (pred v) then Ok (Some false)
      else All_loop todo (i + 1) slice pred
  end.

Definition All (slice : goslice T) (pred : T → bool) : outcome bool :=
  r ← All_loop (length (elems slice)) 0 slice pred;
  match r with
  | Some b => Ok b
  | None => Ok true
  end.

(** [func IfElse[T any](condition bool, trueVal, falseVal T) T] *)
Definition IfElse (condition : bool) (trueVal falseVal : T) : T :=
  if condition then trueVal else falseVal.

(** [func ToIfaceSlice(arr ...any) []any]: the arguments arrive as a slice,
    which is returned. *)
Definition ToIfaceSlice (arr : goslice T) : goslice T := arr.

(** The slice of length [n] on the array of [s], from the same first cell. *)
Definition rewindow (n : nat) (s : goslice T) : goslice T :=
  Slice (take n (backing s)) (drop n (backing s)).

(** [func FilterInPlace[T any](a []T, f func(T) bool) []T].  [a] and [b] start
    on the same cell; [shared] tells whether [b] is still on the array of [a]
    (it is until [append] has to move [b]).  While it is, a write through one
    of them shows in the other. *)
Definition append_aliased `{!ZeroValue T} (grow : nat → nat)
    (a b : goslice T) (shared : bool) (x : T)
    : goslice T * goslice T * bool :=
  match spare b with
  | _ :: _ =>
      let b' := append grow b x in
      if shared then (rewindow (length (elems a)) b', b', true)
      else (a, b', false)
  | [] => (a, append grow b x, false)
  end.

Fixpoint FilterInPlace_loop `{!ZeroValue T} (grow : nat → nat) (todo : nat)
    (i : Z) (a b : goslice T) (shared : bool) (f : T → bool)
    : outcome (goslice T * goslice T * bool) :=
  match todo with
  | O => Ok (a, b, shared)
  | S todo =>
      x ← index a i;
      if f x then
        let '(a, b, shared) := append_aliased grow a b shared x in
        FilterInPlace_loop grow todo (i + 1) a b shared f
      else FilterInPlace_loop grow todo (i + 1) a b shared f
  end.

Fixpoint FilterInPlace_clear `{!ZeroValue T} (fuel : nat) (i : Z)
    (a b : goslice T) (shared : bool) : outcome (goslice T * goslice T) :=
  if decide (i < len a)%Z then
    match fuel with
    | O => OutOfFuel
    | S fuel =>
        a ← assign a i zero;
        FilterInPlace_clear fuel (i + 1) a
          (if shared then rewindow (length (elems b)) a else b) shared
    end
  else Ok (a, b).

Definition FilterInPlace `{!ZeroValue T} (grow : nat → nat) (a : goslice T)
    (f : T → bool) : outcome (goslice T) :=
  b ← reslice a 0 0;
  '(a, b, shared) ←
    FilterInPlace_loop grow (length (elems a)) 0 a b true f;
  '(a, b) ← FilterInPlace_clear (length (elems a)) (len b) a b shared;
  Ok b.

(** [math/rand]: [rand.Intn(n)] panics for [n <= 0]; otherwise it returns a
    number of [[0, n)] taken from the process-wide source.  The source is the
    sequence of its answers: [draw k n] is what the [k]-th call returns. *)
Definition Intn (draw : nat → Z → Z) (k : nat) (n : Z) : outcome Z :=
  if decide (n ≤ 0)%Z then Panic else Ok (draw k n).

(** [func Shuffle[T any](a []T)]; [k] counts the calls of [rand.Intn]. *)
Fixpoint Shuffle_loop (draw : nat → Z → Z) (fuel : nat) (k : nat) (i : Z)
    (a : goslice T) : outcome (goslice T) :=
  if decide (i > 0)%Z then
    match fuel with
    | O => OutOfFuel
    | S fuel =>
        j ← Intn draw k (i + 1);
        (* a[i], a[j] = a[j], a[i] *)
        y ← index a j;
        x ← index a i;
        a ← assign a i y;
        a ← assign a j x;
        Shuffle_loop draw fuel (S k) (i - 1) a
    end
  else Ok a.

Definition Shuffle (draw : nat → Z → Z) (a : goslice T)
    : outcome (goslice T) :=
  Shuffle_loop draw (length (elems a)) 0 (len a - 1) a.
End Others.

(** ** Reference functions of the statements *)

(** The sum of a list of integers. *)
Definition Zsum (l : list Z) : Z := foldr Z.add 0%Z l.

(** The values of [l] that are not in [seen] and occur for the first time,
    in order. *)
Fixpoint kept_from `{Countable T} (seen : gset T) (l : list T) : list T :=
  match l with
  | [] => []
  | v :: l =>
      if decide (v ∈ seen) then kept_from seen l
      else v :: kept_from ({[v]} ∪ seen) l
  end.

(** The values of [l] that [del] does not select, in order. *)
Definition kept {T : Type} (del : T → bool) (l : list T) : list T :=
  List.filter (λ x, negb (del x)) l.

(** Go's [+] on [int] (64 bits, two's complement): the sum wraps around. *)
Definition wrap64 (z : Z) : Z :=
  ((z + 2 ^ 63) mod 2 ^ 64 - 2 ^ 63)%Z.
Definition add64 (acc v : Z) : Z := wrap64 (acc + v).

(** * Proofs *)

(** Equations between lists written with [++] and [::], and between the
    positions their lengths give. *)
Ltac list_pos :=
  repeat (rewrite <- app_assoc || rewrite length_app || simpl);
  try reflexivity; try lia.

(** ** Slice primitives *)

Section SliceFacts.
Context {T : Type}.
Implicit Types (s : goslice T) (l sp : list T) (v : T).

Lemma len_Slice l sp : len (Slice l sp) = Z.of_nat (length l).
Proof. reflexivity. Qed.

Lemma index_Ok s (i : nat) v :
  elems s !! i = Some v → index s (Z.of_nat i) = Ok v.
Proof.
  intros Hi. unfold index, len.
  pose proof (lookup_lt_Some _ _ _ Hi).
  rewrite decide_True by lia. by rewrite Nat2Z.id, Hi.
Qed.

Lemma index_app_mid l1 l2 sp v :
  index (Slice (l1 ++ v :: l2) sp) (Z.of_nat (length l1)) = Ok v.
Proof. apply index_Ok. simpl. by rewrite list_lookup_middle. Qed.

Lemma assign_Ok s (i : nat) v :
  i < length (elems s) →
  assign s (Z.of_nat i) v = Ok (Slice (<[i := v]> (elems s)) (spare s)).
Proof.
  intros Hi. unfold assign, len.
  rewrite decide_True by lia. by rewrite Nat2Z.id.
Qed.

Lemma assign_app_mid l1 l2 sp v w :
  assign (Slice (l1 ++ v :: l2) sp) (Z.of_nat (length l1)) w
  = Ok (Slice (l1 ++ w :: l2) sp).
Proof.
  rewrite assign_Ok; simpl.
  - by rewrite insert_app_r_alt, Nat.sub_diag by lia.
  - rewrite length_app. simpl. lia.
Qed.

Lemma index_at l l1 l2 sp v (i : Z) :
  l = l1 ++ v :: l2 → i = Z.of_nat (length l1) →
  index (Slice l sp) i = Ok v.
Proof. intros -> ->. apply index_app_mid. Qed.

Lemma assign_at l l1 l2 sp v w (i : Z) :
  l = l1 ++ v :: l2 → i = Z.of_nat (length l1) →
  assign (Slice l sp) i w = Ok (Slice (l1 ++ w :: l2) sp).
Proof. intros -> ->. apply assign_app_mid. Qed.

(** [s[:k]] for [0 <= k <= len(s)]: the cells cut off stay reachable. *)
Lemma reslice_prefix s (k : nat) :
  k ≤ length (elems s) →
  reslice s 0 (Z.of_nat k)
  = Ok (Slice (take k (elems s)) (drop k (elems s) ++ spare s)).
Proof.
  intros Hk. unfold reslice, cap, backing.
  rewrite decide_True by (rewrite length_app; lia).
  rewrite Z.sub_0_r, Nat2Z.id. change (Z.to_nat 0) with 0. rewrite drop_0.
  f_equal. f_equal.
  - by rewrite take_app_le.
  - by rewrite drop_app_le.
Qed.

(** [s[k:]] for [0 <= k <= len(s)]. *)
Lemma reslice_suffix s (k : nat) :
  k ≤ length (elems s) →
  reslice s (Z.of_nat k) (len s) = Ok (Slice (drop k (elems s)) (spare s)).
Proof.
  intros Hk. unfold reslice, cap, backing, len.
  rewrite decide_True by (rewrite length_app; lia).
  rewrite <- Nat2Z.inj_sub, !Nat2Z.id by done. f_equal. f_equal.
  - rewrite drop_app_le by done.
    rewrite take_app_le by (rewrite length_drop; lia).
    apply take_ge. rewrite length_drop. lia.
  - by rewrite drop_app_length.
Qed.

(** [s[0:k:k]] for [0 <= k <= len(s)]: nothing beyond [k] stays reachable. *)
Lemma reslice3_prefix s (k : nat) :
  k ≤ length (elems s) →
  reslice3 s 0 (Z.of_nat k) (Z.of_nat k) = Ok (Slice (take k (elems s)) []).
Proof.
  intros Hk. unfold reslice3, cap, backing.
  rewrite decide_True by (rewrite length_app; lia).
  rewrite Z.sub_0_r, Z.sub_diag, Nat2Z.id.
  change (Z.to_nat 0) with 0. rewrite drop_0, take_0.
  by rewrite take_app_le.
Qed.
End SliceFacts.

(** ** Clamp *)

(** C9.  Clamp tests the lower bound first: when [value < lo] the result is
    [lo], whatever the order of [lo] and [hi]; otherwise, when [value > hi] the
    result is [hi]; otherwise it is [value].  Nothing is assumed of [<]. *)
Theorem Clamp_lower_bound_first {T : Type} (lt : T → T → bool)
    (value lo hi : T) :
  (lt value lo = true → Clamp lt value lo hi = lo)
  ∧ (lt value lo = false → lt hi value = true → Clamp lt value lo hi = hi)
  ∧ (lt value lo = false → lt hi value = false →
     Clamp lt value lo hi = value).
Proof.
  unfold Clamp. repeat split.
  - by intros ->.
  - by intros -> ->.
  - by intros -> ->.
Qed.

(** With the bounds crossed ([lo = 10 > hi = 0]) the lower bound still wins;
    the cases of the package's test. *)
Example Clamp_crossed_bounds :
  (Clamp Z.ltb 5 10 0 = 10 ∧ Clamp Z.ltb 5 0 10 = 5
   ∧ Clamp Z.ltb (-1) 0 10 = 0 ∧ Clamp Z.ltb 11 0 10 = 10)%Z.
Proof. by vm_compute. Qed.

(** ** Limit *)

Section LimitFacts.
Context {T : Type}.
Implicit Types (s : goslice T) (n : Z).

(** For [n >= 0], [Limit] returns the first [min n (len s)] elements and
    keeps the rest of the array within reach. *)
Lemma Limit_nonneg s n :
  (0 ≤ n)%Z →
  Limit s n = Ok (Slice (take (Z.to_nat n) (elems s))
                        (drop (Z.to_nat n) (elems s) ++ spare s)).
Proof.
  intros Hn. unfold Limit.
  assert (Z.min (len s) n = Z.of_nat (min (length (elems s)) (Z.to_nat n)))
    as -> by (unfold len; lia).
  rewrite reslice_prefix by lia. f_equal.
  destruct (decide (Z.to_nat n ≤ length (elems s))) as [Hle|Hgt].
  - by rewrite Nat.min_r.
  - rewrite Nat.min_l by lia.
    by rewrite !take_ge, !drop_ge by lia.
Qed.

Lemma Limit_nonneg_length_prefix s n :
  (0 ≤ n)%Z →
  ∃ r, Limit s n = Ok r
    ∧ Z.of_nat (length (elems r)) = Z.min (Z.max n 0) (len s)
    ∧ elems r `prefix_of` elems s
    ∧ ((len s ≤ n)%Z → elems r = elems s)
    ∧ (n = 0%Z → elems r = []).
Proof.
  intros Hn. eexists. split; [by apply Limit_nonneg|]. simpl.
  repeat split.
  - rewrite length_take. unfold len. lia.
  - apply prefix_take.
  - unfold len. intros ?. apply take_ge. lia.
  - by intros ->.
Qed.

(** C2.  A negative [n] makes [Limit] panic: [min(len(slice), n)] is then
    [n], and [slice[:n]] is out of range. *)
Theorem Limit_negative_panics s n : (n < 0)%Z → Limit s n = Panic.
Proof.
  intros Hn. unfold Limit, reslice.
  rewrite decide_False; [done|]. unfold len. lia.
Qed.
End LimitFacts.

Lemma Limit_negative_panics_witness :
  (-2 < 0)%Z ∧ Limit (Slice [4; 5; 6]%Z []) (-2) = Panic.
Proof. split; [lia | apply Limit_negative_panics; lia]. Defined.

(** C1.  [Limit([]int{1, 2, 3}, -1)] panics. *)
Theorem Limit_minus_one_panics :
  Limit (Slice [1; 2; 3]%Z []) (-1) = Panic.
Proof. reflexivity. Qed.

(** ** Reduce *)

Section ReduceFacts.
Context {T R : Type}.
Implicit Types (l sp : list T) (f : R → T → R) (acc : R).

Lemma Reduce_loop_fold f sp l2 : ∀ l1 acc,
  Reduce_loop (length l2) (Z.of_nat (length l1)) (Slice (l1 ++ l2) sp) acc f
  = Ok (fold_left f l2 acc).
Proof.
  induction l2 as [|x l2 IH]; intros l1 acc; [done|].
  simpl. rewrite index_app_mid. simpl.
  replace (Z.of_nat (length l1) + 1)%Z with (Z.of_nat (length (l1 ++ [x])))
    by (rewrite length_app; simpl; lia).
  rewrite (cons_middle x l1 l2), (assoc (++)). apply IH.
Qed.

Lemma Reduce_fold (s : goslice T) acc f :
  Reduce s acc f = Ok (fold_left f (elems s) acc).
Proof. destruct s as [l sp]. apply (Reduce_loop_fold f sp l []). Qed.
End ReduceFacts.

Lemma fold_left_add_Zsum (l : list Z) : ∀ a : Z,
  fold_left Z.add l a = (a + Zsum l)%Z.
Proof.
  induction l as [|x l IH]; intros a; simpl; [lia|]. rewrite IH. lia.
Qed.

(** With Go's own [+] on [int] the same fold gives the sum wrapped to 64
    bits, which is the sum itself whenever that fits an [int]. *)
Lemma wrap64_add (a b : Z) : wrap64 (wrap64 a + b) = wrap64 (a + b).
Proof.
  unfold wrap64.
  replace (((a + 2 ^ 63) mod 2 ^ 64 - 2 ^ 63 + b + 2 ^ 63))%Z
    with ((a + 2 ^ 63) mod 2 ^ 64 + b)%Z by lia.
  rewrite Zplus_mod_idemp_l. f_equal. f_equal. lia.
Qed.

Lemma fold_left_add64 (l : list Z) : ∀ a : Z,
  fold_left add64 l (wrap64 a) = wrap64 (a + Zsum l).
Proof.
  induction l as [|x l IH]; intros a; simpl.
  - f_equal. lia.
  - unfold add64 at 2. rewrite wrap64_add, IH. f_equal. lia.
Qed.

Lemma Reduce_add64 (ints : goslice Z) :
  Reduce ints 0%Z add64 = Ok (wrap64 (Zsum (elems ints)))
  ∧ ((- 2 ^ 63 ≤ Zsum (elems ints) < 2 ^ 63)%Z →
     Reduce ints 0%Z add64 = Ok (Zsum (elems ints))).
Proof.
  assert (Reduce ints 0%Z add64 = Ok (wrap64 (Zsum (elems ints)))) as E.
  { rewrite Reduce_fold. change 0%Z with (wrap64 0) at 1.
    by rewrite fold_left_add64. }
  split; [done|]. intros Hr. rewrite E. f_equal. unfold wrap64.
  rewrite Z.mod_small; lia.
Qed.

(** C7.  Reduce is the left fold in index order: with [acc i] the accumulator
    after [i] elements, [acc 0 = initial], [acc (i+1) = f (acc i) (s[i])], and
    the result is the last accumulator.  On the empty slice the result is
    [initial]; with 0 and Go's addition on [int] it is the sum of the elements
    wrapped to 64 bits, which is the sum itself whenever that fits an
    [int]. *)
Theorem Reduce_left_fold {T R : Type} (s : goslice T) (initial : R)
    (f : R → T → R) (sp : list T) (ints : goslice Z) :
  let acc i := fold_left f (take i (elems s)) initial in
  acc 0 = initial
  ∧ (∀ i x, elems s !! i = Some x → acc (S i) = f (acc i) x)
  ∧ Reduce s initial f = Ok (acc (length (elems s)))
  ∧ Reduce (Slice [] sp) initial f = Ok initial
  ∧ Reduce ints 0%Z add64 = Ok (wrap64 (Zsum (elems ints)))
  ∧ ((- 2 ^ 63 ≤ Zsum (elems ints) < 2 ^ 63)%Z →
     Reduce ints 0%Z add64 = Ok (Zsum (elems ints))).
Proof.
  simpl. destruct (Reduce_add64 ints) as [Hwrap Hfit].
  repeat split; try done.
  - intros i x Hi. by rewrite (take_S_r _ _ _ Hi), fold_left_app.
  - by rewrite Reduce_fold, firstn_all.
Qed.

(** With [math.MaxInt64] and 1 the sum is [2^63], which no [int] holds: Reduce
    returns [math.MinInt64]. *)
Lemma Reduce_sum_overflows :
  Reduce (Slice [2 ^ 63 - 1; 1]%Z []) 0%Z add64 = Ok (- 2 ^ 63)%Z
  ∧ Zsum [2 ^ 63 - 1; 1]%Z = (2 ^ 63)%Z
  ∧ Reduce (Slice [2 ^ 63 - 1; 1]%Z []) 0%Z add64
    ≠ Ok (Zsum [2 ^ 63 - 1; 1]%Z).
Proof. vm_compute. by repeat split. Qed.

(** ** First *)

Section FirstFacts.
Context {T : Type} `{!ZeroValue T}.
Implicit Types (l sp : list T) (pred : T → bool).

Lemma First_loop_find pred sp l2 : ∀ l1,
  First_loop (length l2) (Z.of_nat (length l1)) (Slice (l1 ++ l2) sp) pred
  = Ok (find pred l2).
Proof.
  induction l2 as [|x l2 IH]; intros l1; [done|].
  simpl. rewrite index_app_mid. simpl. destruct (pred x); [done|].
  replace (Z.of_nat (length l1) + 1)%Z with (Z.of_nat (length (l1 ++ [x])))
    by (rewrite length_app; simpl; lia).
  rewrite (cons_middle x l1 l2), (assoc (++)). apply IH.
Qed.

Lemma First_find (s : goslice T) pred :
  First s pred = match find pred (elems s) with
                 | Some x => Ok (x, true)
                 | None => Ok (zero, false)
                 end.
Proof.
  destruct s as [l sp]. unfold First.
  pose proof (First_loop_find pred sp l []) as E.
  change (First_loop (length l) 0 (Slice l sp) pred = Ok (find pred l)) in E.
  simpl. by rewrite E.
Qed.

Lemma find_least pred l : ∀ i x,
  l !! i = Some x → pred x = true →
  (∀ j y, j < i → l !! j = Some y → pred y = false) →
  find pred l = Some x.
Proof.
  induction l as [|a l IH]; intros i x Hi Hx Hmin; [done|].
  destruct i as [|i]; simpl in *.
  - injection Hi as ->. by rewrite Hx.
  - rewrite (Hmin 0 a) by (done || lia).
    apply (IH i); [done..|]. intros j y Hj Hy. apply (Hmin (S j)); [lia|done].
Qed.

Lemma find_no_match pred l :
  (∀ x, x ∈ l → pred x = false) → find pred l = None.
Proof.
  induction l as [|a l IH]; intros Hall; [done|]. simpl.
  rewrite Hall by left. apply IH. intros x Hx. apply Hall. by right.
Qed.
End FirstFacts.

(** C8.  First returns, with [true], the element at the least index that
    satisfies [pred]; when no element satisfies [pred] it returns the zero
    value with [false].  On [5, 7, 9, 10] and "is even" the result is
    [(10, true)], on [5, 7, 9] it is [(0, false)]. *)
Theorem First_least_match_or_zero {T : Type} `{!ZeroValue T}
    (s : goslice T) (pred : T → bool) :
  (∀ i x, elems s !! i = Some x → pred x = true →
     (∀ j y, j < i → elems s !! j = Some y → pred y = false) →
     First s pred = Ok (x, true))
  ∧ ((∀ x, x ∈ elems s → pred x = false) → First s pred = Ok (zero, false))
  ∧ (∃ r, First s pred = Ok r)
  ∧ First (Slice [5; 7; 9; 10]%Z []) (λ x, Z.rem x 2 =? 0)%Z = Ok (10%Z, true)
  ∧ First (Slice [5; 7; 9]%Z []) (λ x, Z.rem x 2 =? 0)%Z = Ok (0%Z, false).
Proof.
  repeat split.
  - intros i x Hi Hx Hmin. by rewrite First_find, (find_least pred _ i x).
  - intros Hnone. by rewrite First_find, find_no_match.
  - rewrite First_find. destruct (find pred (elems s)); eauto.
Qed.

(** ** Reverse *)

Section ReverseFacts.
Context {T : Type}.
Implicit Types (a : goslice T) (pre mid post sp : list T).

Lemma Reverse_loop_unfold fuel (left right : Z) a :
  Reverse_loop fuel left right a =
  if decide (left < right)%Z then
    match fuel with
    | O => OutOfFuel
    | S fuel =>
        y ← index a right; x ← index a left;
        a ← assign a left y; a ← assign a right x;
        Reverse_loop fuel (left + 1) (right - 1) a
    end
  else Ok a.
Proof. by destruct fuel. Qed.

(** The two pointers close in on the middle part, which ends up reversed;
    what lies outside them is left alone. *)
Lemma Reverse_loop_middle sp fuel : ∀ mid pre post (left right : Z),
  length mid ≤ fuel →
  left = Z.of_nat (length pre) →
  right = (left + Z.of_nat (length mid) - 1)%Z →
  Reverse_loop fuel left right (Slice (pre ++ mid ++ post) sp)
  = Ok (Slice (pre ++ reverse mid ++ post) sp).
Proof.
  induction fuel as [|fuel IH]; intros mid pre post left right Hfuel Hl Hr;
    rewrite Reverse_loop_unfold.
  - destruct mid; [|simpl in Hfuel; lia].
    by rewrite decide_False by (simpl in Hr; lia).
  - destruct mid as [|x mid];
      [by rewrite decide_False by (simpl in Hr; lia)|].
    destruct mid as [|y mid _] using rev_ind;
      [by rewrite decide_False by (simpl in Hr; lia)|].
    rewrite length_cons, length_app in *. simpl in Hfuel, Hr.
    rewrite decide_True by lia.
    rewrite (index_at _ (pre ++ x :: mid) post sp y right) by list_pos.
    rewrite (index_at _ pre (mid ++ y :: post) sp x left) by list_pos.
    simpl.
    rewrite (assign_at _ pre (mid ++ y :: post) sp x y left) by list_pos.
    simpl.
    rewrite (assign_at _ (pre ++ y :: mid) post sp y x right) by list_pos.
    simpl.
    (* the rest of the loop works on mid *)
    replace ((pre ++ y :: mid) ++ x :: post)
      with ((pre ++ [y]) ++ mid ++ x :: post) by list_pos.
    rewrite (IH mid (pre ++ [y]) (x :: post)) by list_pos.
    do 2 f_equal. rewrite reverse_cons, reverse_app. by list_pos.
Qed.

Lemma Reverse_reverse a :
  Reverse a = Ok (Slice (reverse (elems a)) (spare a)).
Proof.
  destruct a as [l sp]. unfold Reverse, len. simpl.
  pose proof (Reverse_loop_middle sp (length l) l [] [] 0
                (Z.of_nat (length l) - 1) (le_n _) eq_refl eq_refl) as E.
  simpl in E. rewrite !app_nil_r in E. exact E.
Qed.
End ReverseFacts.

(** C6.  Reverse keeps the length, a second Reverse restores the slice (the
    whole array, cell by cell), and the reversed elements are a permutation of
    the original ones. *)
Theorem Reverse_involution {T : Type} (a : goslice T) :
  ∃ a', Reverse a = Ok a'
    ∧ length (elems a') = length (elems a)
    ∧ Reverse a' = Ok a
    ∧ elems a' ≡ₚ elems a.
Proof.
  exists (Slice (reverse (elems a)) (spare a)). split; [apply Reverse_reverse|].
  simpl. split; [apply length_reverse|]. split.
  - rewrite Reverse_reverse. simpl. rewrite reverse_involutive. by destruct a.
  - apply reverse_Permutation.
Qed.

(** ** Batch *)

Section BatchFacts.
Context {T : Type}.
Implicit Types (l sp : list T) (batches : option (list (goslice T))).

Lemma Batch_loop_unfold fuel (slice : goslice T) (batchSize : Z) batches :
  Batch_loop fuel slice batchSize batches =
  if decide (batchSize < len slice)%Z then
    match fuel with
    | O => OutOfFuel
    | S fuel =>
        rest ← reslice slice batchSize (len slice);
        chunk ← reslice3 slice 0 batchSize batchSize;
        Batch_loop fuel rest batchSize (batches_append batches chunk)
    end
  else Ok (slice, batches).
Proof. by destruct fuel. Qed.

(** The loop cuts full chunks off the front, each closed at its own end,
    and leaves a last part of at most [b] elements, which is empty only if
    the slice was. *)
Lemma Batch_loop_chunks sp (b : nat) fuel : ∀ l batches,
  0 < b → length l ≤ fuel →
  ∃ chunks last batches',
    Batch_loop fuel (Slice l sp) (Z.of_nat b) batches
    = Ok (Slice last sp, batches')
    ∧ default [] batches' = default [] batches ++ chunks
    ∧ (chunks = [] → batches' = batches)
    ∧ l = concat (elems <$> chunks) ++ last
    ∧ Forall (λ c, length (elems c) = b ∧ spare c = []) chunks
    ∧ length last ≤ b
    ∧ (l ≠ [] → last ≠ []).
Proof.
  induction fuel as [|fuel IH]; intros l batches Hb Hfuel;
    rewrite Batch_loop_unfold, len_Slice.
  - rewrite decide_False by lia.
    exists [], l, batches. rewrite app_nil_r. repeat split; auto; lia.
  - destruct (decide (Z.of_nat b < Z.of_nat (length l))%Z) as [Hlt|Hge].
    + rewrite <- (len_Slice l sp), reslice_suffix by (simpl; lia).
      rewrite reslice3_prefix by (simpl; lia). simpl.
      destruct (IH (drop b l) (batches_append batches (Slice (take b l) [])))
        as (chunks & last & batches' & -> & Hd & _ & Hl & Hall & Hlast & Hne);
        [done | rewrite length_drop; lia |].
      exists (Slice (take b l) [] :: chunks), last, batches'.
      split; [done|]. split; [by rewrite Hd; simpl; rewrite <- app_assoc|].
      split; [done|]. split.
      { rewrite fmap_cons. simpl. rewrite <- app_assoc, <- Hl.
        by rewrite take_drop. }
      split.
      { constructor; [|done]. simpl. rewrite length_take. split; [lia|done]. }
      split; [done|]. intros _. apply Hne.
      intros E. apply (f_equal length) in E. rewrite length_drop in E.
      simpl in E. lia.
    + exists [], l, batches. rewrite app_nil_r. repeat split; auto; lia.
Qed.
End BatchFacts.

(** C3.  For [size <= 0] Batch returns nil.  For [size > 0] it returns the
    consecutive chunks of the slice: their concatenation is the slice, no
    chunk is empty or longer than [size], and every chunk but the last has
    exactly [size] elements.  [Batch([1..7], 3)] is [[1 2 3] [4 5 6] [7]],
    [Batch([1..7], 10)] is [[1 .. 7]], and [Batch(s, 0)] is nil. *)
Theorem Batch_consecutive_chunks {T : Type} (s : goslice T) (size : Z) :
  ((size ≤ 0)%Z → Batch s size = Ok None)
  ∧ ((0 < size)%Z →
     ∃ batches, Batch s size = Ok batches ∧
       let chunks := default [] batches in
       concat (elems <$> chunks) = elems s
       ∧ Forall (λ c, (0 < Z.of_nat (length (elems c)) ≤ size)%Z) chunks
       ∧ (∀ i c, chunks !! i = Some c → S i < length chunks →
            Z.of_nat (length (elems c)) = size))
  ∧ Batch (Slice [1; 2; 3; 4; 5; 6; 7]%Z []) 3
    = Ok (Some [Slice [1; 2; 3]%Z []; Slice [4; 5; 6]%Z []; Slice [7]%Z []])
  ∧ Batch (Slice [1; 2; 3; 4; 5; 6; 7]%Z []) 10
    = Ok (Some [Slice [1; 2; 3; 4; 5; 6; 7]%Z []])
  ∧ Batch s 0 = Ok None.
Proof.
  split; [by intros ?; unfold Batch; rewrite decide_True|].
  split; [|done].
  intros Hsize. destruct s as [l sp]. unfold Batch.
  rewrite decide_False by lia.
  destruct (Batch_loop_chunks sp (Z.to_nat size) (length l) l None)
    as (chunks & last & batches' & E & Hd & Hnil & Hl & Hall & Hlast & Hne);
    [lia | done |].
  rewrite Z2Nat.id in E by lia. simpl in *. rewrite E. simpl.
  rewrite len_Slice.
  assert (Forall (λ c : goslice T,
            (0 < Z.of_nat (length (elems c)) ≤ size)%Z) chunks) as Hall'.
  { eapply Forall_impl; [exact Hall|]. intros c [Hc _]. simpl. lia. }
  destruct last as [|x last].
  - (* nothing is left: the slice was empty and there is no chunk *)
    rewrite decide_False by (simpl; lia).
    destruct (decide (l = [])) as [->|Hl0]; [|by destruct Hne].
    exists batches'. split; [done|]. rewrite Hd. simpl.
    rewrite app_nil_r in Hl. repeat split; [done..|].
    intros i c Hi Hlt. apply (Forall_lookup_1 _ _ _ _ Hall) in Hi as [Hc _].
    lia.
  - rewrite decide_True by (simpl; lia).
    eexists. split; [done|]. simpl. rewrite Hd. simpl.
    rewrite fmap_app, concat_app. simpl. rewrite app_nil_r.
    repeat split; [done| |].
    + apply Forall_app. split; [done|]. constructor; [|done]. simpl in *. lia.
    + intros i c Hi Hlt. rewrite length_app in Hlt. simpl in Hlt.
      rewrite lookup_app_l in Hi by lia.
      apply (Forall_lookup_1 _ _ _ _ Hall) in Hi as [Hc _]. lia.
Qed.

(** ** Unique *)

Section UniqueFacts.
Context `{Countable T} `{!ZeroValue T}.
Implicit Types (l pre mid suf g sp : list T) (seen : gset T).

Lemma kept_from_elem seen l : ∀ x,
  x ∈ kept_from seen l ↔ x ∈ l ∧ x ∉ seen.
Proof.
  revert seen. induction l as [|v l IH]; intros seen x; simpl.
  - set_solver.
  - case_decide.
    + rewrite IH. set_solver.
    + rewrite elem_of_cons, IH. split; [set_solver|].
      intros [[->|Hx]%elem_of_cons Hs]; [by left|].
      destruct (decide (x = v)) as [->|]; [by left|]. right. set_solver.
Qed.

Lemma kept_from_NoDup seen l : NoDup (kept_from seen l).
Proof.
  revert seen. induction l as [|v l IH]; intros seen; simpl.
  - constructor.
  - case_decide; [done|]. constructor; [|done].
    rewrite kept_from_elem. set_solver.
Qed.

Lemma kept_from_length seen l : length (kept_from seen l) ≤ length l.
Proof.
  revert seen. induction l as [|v l IH]; intros seen; simpl; [done|].
  case_decide; simpl; [specialize (IH seen) | specialize (IH ({[v]} ∪ seen))];
    lia.
Qed.

(** A value kept before another one occurs in the input before any
    occurrence of that other one. *)
Lemma kept_from_order l : ∀ seen r1 x r2 y,
  kept_from seen l = r1 ++ x :: r2 → y ∈ r2 →
  ∃ k, x ∈ take k l ∧ y ∉ take k l.
Proof.
  induction l as [|v l IH]; intros seen r1 x r2 y E Hy; simpl in E.
  - by destruct r1.
  - assert (y ∈ kept_from seen (v :: l)) as Hyk.
    { simpl. rewrite E. set_solver. }
    case_decide as Hv.
    + destruct (IH _ _ _ _ _ E Hy) as (k & Hx & Hny).
      exists (S k). simpl. split; [set_solver|].
      apply kept_from_elem in Hyk as [_ Hys].
      intros [->|?]%elem_of_cons; done.
    + assert (y ≠ v) as Hyv.
      { intros ->. pose proof (kept_from_NoDup seen (v :: l)) as Hnd.
        simpl in Hnd. rewrite decide_False, E in Hnd by done.
        destruct r1 as [|a r1]; simplify_eq/=.
        - by apply NoDup_cons in Hnd as [? _].
        - apply NoDup_cons in Hnd as [Hnd _]. set_solver. }
      destruct r1 as [|a r1]; simplify_eq/=.
      * exists 1. simpl. rewrite take_0. set_solver.
      * destruct (IH _ _ _ _ _ H1 Hy) as (k & Hx & Hny).
        exists (S k). simpl. set_solver.
Qed.

Lemma kept_from_NoDup_id l : ∀ seen,
  NoDup l → (∀ x, x ∈ l → x ∉ seen) → kept_from seen l = l.
Proof.
  induction l as [|v l IH]; intros seen Hnd Hs; [done|]. simpl.
  apply NoDup_cons in Hnd as [Hv Hnd].
  rewrite decide_False by (apply Hs; by left). f_equal.
  apply IH; [done|]. intros x Hx. specialize (Hs x). set_solver.
Qed.

(** The first loop: the cells before [n] hold the values kept so far, the
    cells from [i] on are still as they were, and what lies between ([mid])
    is no longer read. *)
Lemma Unique_loop_kept sp suf : ∀ pre mid seen (i n : Z),
  i = Z.of_nat (length pre + length mid) → n = Z.of_nat (length pre) →
  ∃ g,
    length (kept_from seen suf ++ g) = length (mid ++ suf)
    ∧ Unique_loop (length suf) i n seen (Slice (pre ++ mid ++ suf) sp)
      = Ok ((n + Z.of_nat (length (kept_from seen suf)))%Z,
            Slice (pre ++ kept_from seen suf ++ g) sp).
Proof.
  induction suf as [|v suf IH]; intros pre mid seen i n Hi Hn.
  - exists mid. simpl. rewrite Z.add_0_r. by rewrite !app_nil_r.
  - cbn [Unique_loop length kept_from].
    rewrite (index_at _ (pre ++ mid) suf sp v i) by list_pos. simpl.
    case_decide as Hv.
    + destruct (IH pre (mid ++ [v]) seen (i + 1)%Z n) as (g & Hg & E);
        [list_pos.. |].
      exists g. split; [revert Hg; list_pos|].
      revert E. by list_pos.
    + destruct mid as [|m mid].
      * simpl in Hi.
        rewrite (assign_at _ pre suf sp v v n) by list_pos. simpl.
        destruct (IH (pre ++ [v]) [] ({[v]} ∪ seen) (i + 1)%Z (n + 1)%Z)
          as (g & Hg & E); [list_pos.. |].
        exists g. split; [revert Hg; list_pos|].
        revert E. list_pos. intros ->. do 2 f_equal. lia.
      * simpl in Hi.
        rewrite (assign_at _ pre (mid ++ v :: suf) sp m v n) by list_pos.
        simpl.
        destruct (IH (pre ++ [v]) (mid ++ [v]) ({[v]} ∪ seen)
                    (i + 1)%Z (n + 1)%Z) as (g & Hg & E); [list_pos.. |].
        exists g. split; [revert Hg; list_pos|].
        revert E. list_pos. intros ->. do 2 f_equal. lia.
Qed.

Lemma Unique_clear_unfold fuel (i : Z) (slice : goslice T) :
  Unique_clear fuel i slice =
  if decide (i < len slice)%Z then
    match fuel with
    | O => OutOfFuel
    | S fuel => slice ← assign slice i zero; Unique_clear fuel (i + 1) slice
    end
  else Ok slice.
Proof. by destruct fuel. Qed.

(** The second loop zeroes the cells from [n] to the end. *)
Lemma Unique_clear_zeroes sp fuel : ∀ g pre (i : Z),
  length g ≤ fuel → i = Z.of_nat (length pre) →
  Unique_clear fuel i (Slice (pre ++ g) sp)
  = Ok (Slice (pre ++ replicate (length g) zero) sp).
Proof.
  induction fuel as [|fuel IH]; intros g pre i Hfuel Hi;
    rewrite Unique_clear_unfold, len_Slice.
  - destruct g; [|simpl in Hfuel; lia].
    by rewrite decide_False by list_pos.
  - destruct g as [|x g]; [by rewrite decide_False by list_pos|].
    rewrite decide_True by list_pos.
    rewrite (assign_at _ pre g sp x zero i) by list_pos. simpl.
    replace (pre ++ zero :: g) with ((pre ++ [zero]) ++ g) by list_pos.
    rewrite (IH g (pre ++ [zero])) by (simpl in Hfuel; list_pos).
    do 2 f_equal. by list_pos.
Qed.

(** What Unique returns: the kept values, then the zeroed cells, then the
    cells that were already out of the slice. *)
Lemma Unique_kept (slice : goslice T) :
  Unique slice =
  Ok (if decide (length (elems slice) ≤ 1) then slice
      else
        let out := kept_from ∅ (elems slice) in
        Slice out
          (replicate (length (elems slice) - length out) zero ++ spare slice)).
Proof.
  destruct slice as [l sp]. unfold Unique. rewrite len_Slice. simpl.
  destruct (decide (length l ≤ 1)) as [Hle|Hgt];
    [by rewrite decide_True by lia|].
  rewrite decide_False by lia.
  destruct (Unique_loop_kept sp l [] [] ∅ 0 0) as (g & Hg & E);
    [done.. |].
  simpl in *. rewrite Z.add_0_l in E. rewrite E. simpl.
  rewrite length_app in *.
  rewrite (Unique_clear_zeroes sp _ g (kept_from ∅ l)) by lia. simpl.
  rewrite reslice_prefix by (simpl; rewrite length_app; lia). simpl.
  rewrite take_app_length, drop_app_length.
  replace (length l - length (kept_from ∅ l)) with (length g) by lia.
  done.
Qed.

(** In place: behind the kept values the caller's slice reads zeroes. *)
Lemma Unique_caller_view (slice : goslice T) :
  1 < length (elems slice) →
  ∃ r, Unique slice = Ok r
    ∧ seen_by_caller (length (elems slice)) r
      = elems r ++ replicate (length (elems slice) - length (elems r)) zero.
Proof.
  intros Hlen. eexists. split; [apply Unique_kept|].
  rewrite decide_False by lia. unfold seen_by_caller, backing. simpl.
  pose proof (kept_from_length ∅ (elems slice)) as Hk.
  rewrite (app_assoc _ _ (spare slice)), take_app_le
    by (rewrite length_app, length_replicate; lia).
  apply take_ge. rewrite length_app, length_replicate. lia.
Qed.
End UniqueFacts.

(** C4.  Unique returns the distinct values of the slice, each once, in the
    order of their first occurrences; the result is no longer than the slice,
    and a slice of at most one element is returned as it is. *)
Theorem Unique_first_occurrences `{Countable T} `{!ZeroValue T}
    (s : goslice T) :
  ∃ r, Unique s = Ok r
    ∧ NoDup (elems r)
    ∧ (∀ x, x ∈ elems r ↔ x ∈ elems s)
    ∧ (∀ r1 x r2 y, elems r = r1 ++ x :: r2 → y ∈ r2 →
         ∃ k, x ∈ take k (elems s) ∧ y ∉ take k (elems s))
    ∧ length (elems r) ≤ length (elems s)
    ∧ (length (elems s) ≤ 1 → r = s).
Proof.
  eexists. split; [apply Unique_kept|].
  assert (length (elems s) ≤ 1 → kept_from ∅ (elems s) = elems s) as Hsmall.
  { destruct s as [[|a [|b l]] sp]; simpl; [done| |lia].
    intros _. by rewrite decide_False by set_solver. }
  case_decide as Hlen; simpl.
  - repeat split; try done.
    + rewrite <- (Hsmall Hlen). apply kept_from_NoDup.
    + intros r1 x r2 y E. rewrite <- (Hsmall Hlen) in E.
      by apply kept_from_order with (seen := ∅) (r1 := r1).
  - repeat split.
    + apply kept_from_NoDup.
    + rewrite kept_from_elem. set_solver.
    + rewrite kept_from_elem. set_solver.
    + apply kept_from_order.
    + apply kept_from_length.
    + lia.
Qed.

(** C5.  Unique is idempotent: applied to its own result it returns that
    result again, with the same values (and the same array contents). *)
Theorem Unique_idempotent `{Countable T} `{!ZeroValue T} (s : goslice T) :
  ∃ r, Unique s = Ok r
    ∧ ∃ r', Unique r = Ok r' ∧ elems r' = elems r ∧ r' = r.
Proof.
  eexists. split; [apply Unique_kept|].
  eexists. split; [apply Unique_kept|].
  set (r := if decide (length (elems s) ≤ 1) then s else _).
  assert (NoDup (elems r)) as Hnd.
  { subst r. case_decide as Hlen; simpl; [|apply kept_from_NoDup].
    destruct s as [[|a [|b l]] sp]; simpl in *; [constructor| |lia].
    apply NoDup_singleton. }
  case_decide; [done|]. simpl.
  rewrite kept_from_NoDup_id by (done || set_solver).
  rewrite Nat.sub_diag. by destruct r.
Qed.

(** ** Filter *)

Section FilterFacts.
Context {T : Type} `{!ZeroValue T}.
Implicit Types (l out room sp : list T) (pred : T → bool).

(** With room for every element still to come, [append] never moves the
    result to another array. *)
Lemma Filter_loop_filter grow pred sp l2 : ∀ l1 out room,
  length l2 ≤ length room →
  Filter_loop grow (length l2) (Z.of_nat (length l1)) (Slice (l1 ++ l2) sp)
    pred (Slice out room)
  = Ok (Slice (out ++ List.filter pred l2)
              (drop (length (List.filter pred l2)) room)).
Proof.
  induction l2 as [|x l2 IH]; intros l1 out room Hroom.
  - simpl. by rewrite app_nil_r.
  - cbn [Filter_loop length List.filter].
    rewrite (index_at _ l1 l2 sp x) by done. simpl.
    replace (Z.of_nat (length l1) + 1)%Z
      with (Z.of_nat (length (l1 ++ [x]))) by list_pos.
    replace (l1 ++ x :: l2) with ((l1 ++ [x]) ++ l2) by list_pos.
    destruct (pred x).
    + destruct room as [|z room]; [simpl in Hroom; lia|].
      unfold append. simpl. rewrite IH by (simpl in Hroom; lia).
      do 2 f_equal. by list_pos.
    + apply IH. simpl in Hroom. lia.
Qed.

Lemma Filter_filter grow (s : goslice T) pred :
  Filter grow s pred
  = Ok (Slice (List.filter pred (elems s))
              (replicate (length (elems s)
                          - length (List.filter pred (elems s))) zero)).
Proof.
  destruct s as [l sp]. unfold Filter, make0. simpl.
  pose proof (Filter_loop_filter grow pred sp l [] []
                (replicate (length l) zero)) as E.
  simpl in E. change (Z.of_nat 0) with 0%Z in E.
  rewrite E by (by rewrite length_replicate).
  by rewrite drop_replicate.
Qed.
End FilterFacts.

(** ** Delete *)

Section DeleteFacts.
Context {T : Type} `{!ZeroValue T}.
Implicit Types (l pre mid suf g sp : list T) (del f : T → bool).

Lemma first_match f l :
  Forall (λ x, f x = false) l
  ∨ ∃ a v b, l = a ++ v :: b ∧ Forall (λ x, f x = false) a ∧ f v = true.
Proof.
  induction l as [|x l [IH|(a & v & b & -> & Ha & Hv)]].
  - left. constructor.
  - destruct (f x) eqn:Hx.
    + right. exists [], x, l. by repeat split.
    + left. by constructor.
  - destruct (f x) eqn:Hx.
    + right. exists [], x, (a ++ v :: b). by repeat split.
    + right. exists (x :: a), v, b. repeat split; [|done]. by constructor.
Qed.

Lemma kept_all del l : Forall (λ x, del x = false) l → kept del l = l.
Proof.
  induction 1 as [|x l Hx _ IH]; [done|]. unfold kept in *. simpl.
  by rewrite Hx, IH.
Qed.

Lemma kept_app del l1 l2 : kept del (l1 ++ l2) = kept del l1 ++ kept del l2.
Proof. apply List.filter_app. Qed.

Lemma kept_length del l : length (kept del l) ≤ length l.
Proof. apply List.filter_length_le. Qed.

Lemma IndexFunc_loop_none f sp l2 : ∀ l1,
  Forall (λ x, f x = false) l2 →
  IndexFunc_loop (length l2) (Z.of_nat (length l1)) (Slice (l1 ++ l2) sp) f
  = Ok (-1)%Z.
Proof.
  induction l2 as [|x l2 IH]; intros l1 Hall; [done|].
  apply Forall_cons in Hall as [Hx Hall].
  cbn [IndexFunc_loop length].
  rewrite (index_at _ l1 l2 sp x) by done. simpl. rewrite Hx.
  replace (Z.of_nat (length l1) + 1)%Z
    with (Z.of_nat (length (l1 ++ [x]))) by list_pos.
  replace (l1 ++ x :: l2) with ((l1 ++ [x]) ++ l2) by list_pos.
  by apply IH.
Qed.

Lemma IndexFunc_loop_first f sp a v b : ∀ l1,
  Forall (λ x, f x = false) a → f v = true →
  IndexFunc_loop (length (a ++ v :: b)) (Z.of_nat (length l1))
    (Slice (l1 ++ a ++ v :: b) sp) f
  = Ok (Z.of_nat (length l1 + length a)).
Proof.
  induction a as [|x a IH]; intros l1 Hall Hv.
  - cbn [IndexFunc_loop length app].
    rewrite (index_at _ l1 b sp v) by done. simpl. rewrite Hv.
    by rewrite Nat.add_0_r.
  - apply Forall_cons in Hall as [Hx Hall].
    cbn [IndexFunc_loop length app].
    rewrite (index_at _ l1 (a ++ v :: b) sp x) by done. simpl. rewrite Hx.
    replace (Z.of_nat (length l1) + 1)%Z
      with (Z.of_nat (length (l1 ++ [x]))) by list_pos.
    replace (l1 ++ x :: a ++ v :: b) with ((l1 ++ [x]) ++ a ++ v :: b)
      by list_pos.
    rewrite IH by done. f_equal. list_pos.
Qed.

Lemma DeleteFunc_loop_unfold fuel (j i : Z) (s : goslice T) del :
  DeleteFunc_loop fuel j i s del =
  if decide (j < len s)%Z then
    match fuel with
    | O => OutOfFuel
    | S fuel =>
        v ← index s j;
        if negb (del v) then
          s ← assign s i v; DeleteFunc_loop fuel (j + 1) (i + 1) s del
        else DeleteFunc_loop fuel (j + 1) i s del
    end
  else Ok (i, s).
Proof. by destruct fuel. Qed.

(** The copying loop: the cells before [i] hold what is kept so far, those
    from [j] on are still to be read. *)
Lemma DeleteFunc_loop_kept del sp fuel : ∀ suf pre mid (j i : Z),
  length suf ≤ fuel →
  j = Z.of_nat (length pre + length mid) → i = Z.of_nat (length pre) →
  ∃ g,
    length (kept del suf ++ g) = length (mid ++ suf)
    ∧ DeleteFunc_loop fuel j i (Slice (pre ++ mid ++ suf) sp) del
      = Ok ((i + Z.of_nat (length (kept del suf)))%Z,
            Slice (pre ++ kept del suf ++ g) sp).
Proof.
  induction fuel as [|fuel IH]; intros suf pre mid j i Hfuel Hj Hi;
    rewrite DeleteFunc_loop_unfold, len_Slice.
  - destruct suf; [|simpl in Hfuel; lia].
    rewrite decide_False by (revert Hj; list_pos).
    exists mid. simpl. by rewrite Z.add_0_r, !app_nil_r.
  - destruct suf as [|v suf].
    { rewrite decide_False by (revert Hj; list_pos).
      exists mid. simpl. by rewrite Z.add_0_r, !app_nil_r. }
    rewrite decide_True by (revert Hj; list_pos).
    rewrite (index_at _ (pre ++ mid) suf sp v j) by list_pos. simpl.
    simpl in Hfuel. unfold kept. cbn [List.filter]. fold (kept del suf).
    destruct (del v); simpl.
    + destruct (IH suf pre (mid ++ [v]) (j + 1)%Z i) as (g & Hg & E);
        [lia | list_pos.. |].
      exists g. split; [revert Hg; list_pos|].
      revert E. by list_pos.
    + destruct mid as [|m mid]; simpl in Hj.
      * rewrite (assign_at _ pre suf sp v v i) by list_pos. simpl.
        destruct (IH suf (pre ++ [v]) [] (j + 1)%Z (i + 1)%Z)
          as (g & Hg & E); [lia | list_pos.. |].
        exists g. split; [revert Hg; list_pos|].
        revert E. list_pos. intros ->. do 2 f_equal. lia.
      * rewrite (assign_at _ pre (mid ++ v :: suf) sp m v i) by list_pos.
        simpl.
        destruct (IH suf (pre ++ [v]) (mid ++ [v]) (j + 1)%Z (i + 1)%Z)
          as (g & Hg & E); [lia | list_pos.. |].
        exists g. split; [revert Hg; list_pos|].
        revert E. list_pos. intros ->. do 2 f_equal. lia.
Qed.

Lemma clear_from_Ok (s : goslice T) (k : nat) :
  k ≤ length (elems s) →
  clear_from s (Z.of_nat k)
  = Ok (Slice (take k (elems s) ++ replicate (length (elems s) - k) zero)
              (spare s)).
Proof.
  intros Hk. unfold clear_from. rewrite reslice_suffix by done. simpl.
  by rewrite Nat2Z.id, length_drop.
Qed.

(** What [DeleteFunc] returns: the slice itself when nothing is to be
    deleted, otherwise the kept values followed by zeroed cells. *)
Lemma DeleteFunc_kept (s : goslice T) del :
  ∃ r, DeleteFunc s del = Ok r
    ∧ elems r = kept del (elems s)
    ∧ backing r
      = kept del (elems s)
        ++ replicate (length (elems s) - length (kept del (elems s))) zero
        ++ spare s.
Proof.
  destruct s as [l sp]. unfold DeleteFunc, IndexFunc. simpl.
  destruct (first_match del l) as [Hnone|(a & v & b & -> & Ha & Hv)].
  - pose proof (IndexFunc_loop_none del sp l [] Hnone) as E.
    simpl in E. change (Z.of_nat 0) with 0%Z in E. rewrite E. simpl.
    exists (Slice l sp). rewrite kept_all by done.
    rewrite Nat.sub_diag. by repeat split.
  - pose proof (IndexFunc_loop_first del sp a v b [] Ha Hv) as E.
    simpl in E. change (Z.of_nat 0) with 0%Z in E. rewrite E. simpl.
    rewrite decide_False by lia.
    destruct (DeleteFunc_loop_kept del sp (length (a ++ v :: b)) b a [v]
                (Z.of_nat (length a) + 1)%Z (Z.of_nat (length a)))
      as (g & Hg & E2); [list_pos.. |].
    change (a ++ [v] ++ b) with (a ++ v :: b) in E2. rewrite E2. simpl.
    assert (kept del (a ++ v :: b) = a ++ kept del b) as Hk.
    { rewrite kept_app, kept_all by done. unfold kept at 1. simpl.
      by rewrite Hv. }
    rewrite <- Nat2Z.inj_add, <- length_app.
    rewrite clear_from_Ok by list_pos. simpl.
    rewrite (app_assoc a (kept del b) g), take_app_length.
    replace (length ((a ++ kept del b) ++ g) - length (a ++ kept del b))
      with (length g) by list_pos.
    rewrite reslice_prefix by (simpl; list_pos). simpl.
    rewrite take_app_length, drop_app_length.
    eexists. split; [done|]. simpl. rewrite Hk. split; [done|].
    unfold backing. simpl. do 3 f_equal.
    rewrite !length_app in *. simpl in *. lia.
Qed.
End DeleteFacts.

(** C10.  Delete returns the values that Filter returns for the predicate
    "different from [value]", whatever the growth policy of [append]: every
    occurrence of [value] is gone and the other elements keep their order. *)
Theorem Delete_agrees_with_Filter `{Countable T} `{!ZeroValue T}
    (grow : nat → nat) (s : goslice T) (value : T) :
  ∃ d f,
    Delete s value = Ok d
    ∧ Filter grow s (λ x, negb (bool_decide (x = value))) = Ok f
    ∧ elems d = elems f
    ∧ (value ∉ elems d)
    ∧ elems d = List.filter (λ x, negb (bool_decide (x = value))) (elems s).
Proof.
  destruct (DeleteFunc_kept s (λ el, bool_decide (el = value)))
    as (d & Ed & Hd & _).
  exists d. eexists. split; [exact Ed|]. split; [apply Filter_filter|].
  simpl. split; [exact Hd|]. split; [|exact Hd].
  rewrite Hd. unfold kept. rewrite list_elem_of_In, List.filter_In.
  intros [_ Hv]. by rewrite bool_decide_eq_true_2 in Hv.
Qed.

(** ** Calls that return *)

(** Every function above returns a value on every input, except [Limit] on a
    negative [n]. *)
Lemma calls_return `{Countable T} `{!ZeroValue T} {R : Type}
    (grow : nat → nat) (s : goslice T) (n : Z) (pred : T → bool)
    (initial : R) (f : R → T → R) (value : T) :
  ((0 ≤ n)%Z → ∃ r, Limit s n = Ok r)
  ∧ (∃ r, Filter grow s pred = Ok r)
  ∧ (∃ r, Reduce s initial f = Ok r)
  ∧ (∃ r, Unique s = Ok r)
  ∧ (∃ r, Reverse s = Ok r)
  ∧ (∃ r, Batch s n = Ok r)
  ∧ (∃ r, First s pred = Ok r)
  ∧ (∃ r, Delete s value = Ok r).
Proof.
  repeat split.
  - intros Hn. eexists. by apply Limit_nonneg.
  - eexists. apply Filter_filter.
  - eexists. apply Reduce_fold.
  - eexists. apply Unique_kept.
  - eexists. apply Reverse_reverse.
  - unfold Batch. case_decide; [by eexists|].
    destruct (Batch_loop_chunks (spare s) (Z.to_nat n) (length (elems s))
                (elems s) None) as (chunks & last & b' & E & _);
      [lia | done |].
    rewrite Z2Nat.id in E by lia. destruct s as [l sp]. simpl in *.
    rewrite E. simpl. case_decide; by eexists.
  - rewrite First_find. destruct (find pred (elems s)); by eexists.
  - destruct (DeleteFunc_kept s (λ el, bool_decide (el = value)))
      as (r & E & _). by exists r.
Qed.

(** ** The cases of the package's tests *)

Example TestLimit :
  Limit (Slice [1; 2; 3]%Z []) 2 = Ok (Slice [1; 2]%Z [3]%Z)
  ∧ Limit (Slice [1; 2; 3]%Z []) 5 = Ok (Slice [1; 2; 3]%Z [])
  ∧ Limit (Slice ([] : list Z) []) 3 = Ok (Slice [] []).
Proof. by vm_compute. Qed.

Example TestReduce :
  Reduce (Slice [1; 2; 3; 4]%Z []) 0%Z Z.add = Ok 10%Z
  ∧ Reduce (Slice [1; 2; 3; 4]%Z []) 1%Z Z.mul = Ok 24%Z
  ∧ Reduce (Slice [1; 2; 3; 4]%Z []) 0%Z add64 = Ok 10%Z
  ∧ Reduce (Slice [2 ^ 63 - 1; 1]%Z []) 0%Z add64 = Ok (- 2 ^ 63)%Z.
Proof. by vm_compute. Qed.

Example TestUnique :
  Unique (Slice ([] : list Z) []) = Ok (Slice [] [])
  ∧ Unique (Slice [1]%Z []) = Ok (Slice [1]%Z [])
  ∧ Unique (Slice [1; 1; 1]%Z []) = Ok (Slice [1]%Z [0; 0]%Z)
  ∧ Unique (Slice [1; 2; 2; 3; 3; 3; 4]%Z [])
    = Ok (Slice [1; 2; 3; 4]%Z [0; 0; 0]%Z)
  ∧ Unique (Slice [1; 2; 3; 4]%Z []) = Ok (Slice [1; 2; 3; 4]%Z []).
Proof. by vm_compute. Qed.

Example TestReverse :
  Reverse (Slice [1; 2; 3; 4; 5]%Z []) = Ok (Slice [5; 4; 3; 2; 1]%Z [])
  ∧ Reverse (Slice [42]%Z []) = Ok (Slice [42]%Z [])
  ∧ Reverse (Slice ([] : list Z) []) = Ok (Slice [] []).
Proof. by vm_compute. Qed.

Example TestFirst :
  First (Slice [5; 7; 9; 10]%Z []) (λ x, Z.rem x 2 =? 0)%Z = Ok (10%Z, true)
  ∧ First (Slice [5; 7; 9; 10]%Z []) (λ x, x <? 0)%Z = Ok (0%Z, false).
Proof. by vm_compute. Qed.

Example TestDelete :
  Delete (Slice [1; 2; 3; 2; 4]%Z []) 2%Z = Ok (Slice [1; 3; 4]%Z [0; 0]%Z).
Proof. by vm_compute. Qed.

(** * Further properties *)

(** ** Clamp, Limit, Reverse, Reduce: bounds, views and indices *)

(** X1.  With [lo <= hi] (that is, not [hi < lo]) and a [<] that relates no
    value to itself, the result of Clamp is neither below [lo] nor above
    [hi], and clamping it again changes nothing. *)
Theorem Clamp_within_bounds {T : Type} (lt : T → T → bool)
    (value lo hi : T) :
  (∀ x, lt x x = false) → lt hi lo = false →
  lt (Clamp lt value lo hi) lo = false
  ∧ lt hi (Clamp lt value lo hi) = false
  ∧ Clamp lt (Clamp lt value lo hi) lo hi = Clamp lt value lo hi.
Proof.
  intros Hirr Hlohi. unfold Clamp.
  destruct (lt value lo) eqn:E1.
  - by rewrite !Hirr, Hlohi.
  - destruct (lt hi value) eqn:E2.
    + by rewrite !Hirr, Hlohi.
    + by rewrite E1, E2.
Qed.

Lemma Clamp_within_bounds_witness :
  (∀ x, Z.ltb x x = false) ∧ Z.ltb 10 0 = false
  ∧ Z.ltb (Clamp Z.ltb 15 0 10)%Z 0 = false
  ∧ Z.ltb 10 (Clamp Z.ltb 15 0 10)%Z = false
  ∧ (Clamp Z.ltb (Clamp Z.ltb 15 0 10) 0 10 = Clamp Z.ltb 15 0 10)%Z.
Proof.
  split; [intros x; apply Z.ltb_irrefl|]. split; [reflexivity|].
  apply (Clamp_within_bounds Z.ltb 15 0 10)%Z;
    [intros x; apply Z.ltb_irrefl | reflexivity].
Defined.

(** X2.  For [n >= 0] Limit returns the first [min n (len s)] elements as a
    slice of the same array with the same capacity: the cells behind the
    result are the rest of the caller's slice. *)
Theorem Limit_view_of_same_array {T : Type} (s : goslice T) (n : Z) :
  (0 ≤ n)%Z →
  ∃ r, Limit s n = Ok r
    ∧ elems r = take (Z.to_nat n) (elems s)
    ∧ backing r = backing s
    ∧ cap r = cap s.
Proof.
  intros Hn. eexists. split; [by apply Limit_nonneg|].
  assert (take (Z.to_nat n) (elems s) ++ drop (Z.to_nat n) (elems s) ++ spare s
          = elems s ++ spare s) as E
    by (by rewrite app_assoc, take_drop).
  unfold cap, backing. simpl. by rewrite E.
Qed.

Lemma Limit_view_of_same_array_witness :
  (0 ≤ 2)%Z
  ∧ ∃ r, Limit (Slice [1; 2; 3]%Z [9]%Z) 2 = Ok r
      ∧ elems r = take (Z.to_nat 2) [1; 2; 3]%Z
      ∧ backing r = backing (Slice [1; 2; 3]%Z [9]%Z)
      ∧ cap r = cap (Slice [1; 2; 3]%Z [9]%Z).
Proof.
  split; [lia|].
  apply (Limit_view_of_same_array (Slice [1; 2; 3]%Z [9]%Z) 2). lia.
Defined.

Lemma drop_take_drop_min {T : Type} (e : list T) : ∀ a b,
  drop b (take a e) ++ drop a e = drop (a `min` b) e.
Proof.
  induction e as [|x e IH]; intros a b.
  - by rewrite take_nil, !drop_nil.
  - destruct a as [|a], b as [|b]; simpl; rewrite ?take_drop; done.
Qed.

(** X3.  Limits compose: for [n, m >= 0], limiting to [n] and then to [m] is
    limiting to [min n m]; a second, larger limit does not bring back what
    the first one cut off. *)
Theorem Limit_Limit {T : Type} (s : goslice T) (n m : Z) :
  (0 ≤ n)%Z → (0 ≤ m)%Z →
  Limit s n ≫= (λ r, Limit r m) = Limit s (Z.min n m).
Proof.
  intros Hn Hm. rewrite (Limit_nonneg s n), (Limit_nonneg s (Z.min n m)) by lia.
  simpl. rewrite Limit_nonneg by lia. simpl.
  rewrite Z2Nat.inj_min, take_take, app_assoc, drop_take_drop_min.
  by rewrite (Nat.min_comm (Z.to_nat m)).
Qed.

Lemma Limit_Limit_witness :
  (0 ≤ 2)%Z ∧ (0 ≤ 5)%Z
  ∧ Limit (Slice [1; 2; 3]%Z []) 2 ≫= (λ r, Limit r 5)
    = Limit (Slice [1; 2; 3]%Z []) (Z.min 2 5).
Proof.
  split; [lia|]. split; [lia|].
  apply (Limit_Limit (Slice [1; 2; 3]%Z []) 2 5); lia.
Defined.

(** X4.  Reverse moves the element at index [i] to index [len - 1 - i] and
    leaves the cells beyond the length as they were. *)
Theorem Reverse_mirrors_indices {T : Type} (a : goslice T) :
  ∃ a', Reverse a = Ok a'
    ∧ spare a' = spare a
    ∧ ∀ i x, elems a !! i = Some x →
        elems a' !! (length (elems a) - 1 - i) = Some x.
Proof.
  eexists. split; [apply Reverse_reverse|]. simpl. split; [done|].
  intros i x Hi. pose proof (lookup_lt_Some _ _ _ Hi) as Hlt.
  rewrite reverse_lookup by lia. rewrite <- Hi. f_equal. lia.
Qed.

(** X5.  With Go's own addition on [int] as accumulator, Reduce returns the
    sum of the elements wrapped to 64 bits; it is the sum itself exactly when
    the sum fits an [int], whatever the partial sums do. *)
Theorem Reduce_int_sum_wraps (ints : goslice Z) :
  Reduce ints 0%Z add64 = Ok (wrap64 (Zsum (elems ints)))
  ∧ ((- 2 ^ 63 ≤ Zsum (elems ints) < 2 ^ 63)%Z ↔
     Reduce ints 0%Z add64 = Ok (Zsum (elems ints))).
Proof.
  destruct (Reduce_add64 ints) as [E Hfit]. split; [done|].
  split; [done|]. rewrite E. intros [= Hw]. rewrite <- Hw. unfold wrap64.
  pose proof (Z.mod_pos_bound (Zsum (elems ints) + 2 ^ 63) (2 ^ 64)). lia.
Qed.

(** ** Unique, Delete, Batch: what happens to the array *)

(** X6.  Unique works in place and keeps the capacity: the array of the
    result holds the kept values, then a zero for every value dropped, then
    the cells that were already beyond the slice. *)
Theorem Unique_in_place `{Countable T} `{!ZeroValue T} (s : goslice T) :
  ∃ r, Unique s = Ok r
    ∧ backing r
      = elems r ++ replicate (length (elems s) - length (elems r)) zero
          ++ spare s
    ∧ cap r = cap s.
Proof.
  eexists. split; [apply Unique_kept|].
  case_decide as Hlen.
  - rewrite Nat.sub_diag. by unfold backing.
  - pose proof (kept_from_length ∅ (elems s)) as Hk.
    unfold cap, backing. simpl. split; [done|].
    rewrite !length_app, length_replicate. lia.
Qed.

Lemma Delete_absent `{Countable T} `{!ZeroValue T} (s : goslice T) (value : T) :
  value ∉ elems s → Delete s value = Ok s.
Proof.
  intros Hv. unfold Delete.
  destruct (DeleteFunc_kept s (λ el, bool_decide (el = value)))
    as (r & -> & Hd & Hb).
  assert (Forall (λ x, bool_decide (x = value) = false) (elems s)) as Hall.
  { apply Forall_forall. intros x Hx. apply bool_decide_eq_false_2.
    by intros ->. }
  rewrite (kept_all _ _ Hall) in Hd, Hb.
  rewrite Nat.sub_diag in Hb. destruct r as [e sp], s as [e' sp'].
  unfold backing in Hb. simpl in *. subst e. by simplify_list_eq.
Qed.

(** X7.  Delete works in place and keeps the capacity: the array of the
    result holds the kept values, then a zero for every value removed, then
    the cells beyond the slice.  When [value] does not occur the slice comes
    back as it is, so a second Delete of the same value changes nothing. *)
Theorem Delete_in_place `{Countable T} `{!ZeroValue T}
    (s : goslice T) (value : T) :
  ∃ r, Delete s value = Ok r
    ∧ backing r
      = elems r ++ replicate (length (elems s) - length (elems r)) zero
          ++ spare s
    ∧ cap r = cap s
    ∧ (value ∉ elems s → r = s)
    ∧ Delete r value = Ok r.
Proof.
  set (del := λ el : T, bool_decide (el = value)).
  destruct (DeleteFunc_kept s del) as (r & E & Hd & Hb).
  exists r. split; [exact E|]. rewrite <- Hd in Hb. split; [exact Hb|].
  split; [|split].
  - unfold cap. rewrite Hb, !length_app, length_replicate.
    pose proof (kept_length del (elems s)) as Hk. rewrite <- Hd in Hk.
    unfold backing. rewrite length_app. lia.
  - intros Hv. pose proof (Delete_absent s value Hv) as E'.
    unfold Delete in E'. fold del in E'. congruence.
  - apply Delete_absent. rewrite Hd. unfold kept.
    rewrite list_elem_of_In, List.filter_In. intros [_ Hv].
    subst del. simpl in Hv. by rewrite bool_decide_eq_true_2 in Hv.
Qed.

Lemma concat_full_chunks {T : Type} (b : nat) (chunks : list (goslice T)) :
  Forall (λ c, length (elems c) = b ∧ spare c = []) chunks →
  length (concat (elems <$> chunks)) = b * length chunks.
Proof.
  induction 1 as [|c chunks [Hc _] _ IH]; [simpl; lia|].
  rewrite fmap_cons. simpl. rewrite length_app, IH, Hc. lia.
Qed.

(** X8.  Batch returns [ceil(len / size)] chunks for [size > 0] and nil
    exactly when [size <= 0] or the slice is empty.  Every chunk before the
    last is closed at its own end (capacity = length), so appending to it
    cannot overwrite the next chunk; the last chunk keeps the spare cells of
    the slice. *)
Theorem Batch_count_and_capacity {T : Type} (s : goslice T) (size : Z) :
  ∃ r, Batch s size = Ok r
    ∧ Z.of_nat (length (default [] r))
      = (if decide (size ≤ 0)%Z then 0 else (len s + size - 1) `div` size)%Z
    ∧ (r = None ↔ (size ≤ 0)%Z ∨ elems s = [])
    ∧ (∀ i c, default [] r !! i = Some c →
         if decide (S i = length (default [] r)) then spare c = spare s
         else spare c = []).
Proof.
  destruct s as [l sp]. unfold Batch, len. simpl.
  destruct (decide (size ≤ 0)%Z) as [Hle|Hgt].
  { exists None. simpl. split; [done|]. split; [done|].
    split; [split; [by left|done]|]. by intros i c ?. }
  destruct (Batch_loop_chunks sp (Z.to_nat size) (length l) l None)
    as (chunks & last & batches' & E & Hd & Hnil & Hl & Hall & Hlast & Hne);
    [lia | done |].
  rewrite Z2Nat.id in E by lia. rewrite E. simpl.
  pose proof (concat_full_chunks _ _ Hall) as Hlen.
  assert (length l = Z.to_nat size * length chunks + length last) as Hll.
  { rewrite Hl at 1. rewrite length_app. lia. }
  simpl in Hd.
  destruct last as [|x last].
  - rewrite decide_False by (simpl; lia).
    destruct (decide (l = [])) as [->|Hl0]; [|by destruct Hne].
    simpl in *. assert (chunks = []) as -> by (destruct chunks; [done|simpl in *; lia]).
    rewrite Hnil by done. exists None. simpl.
    repeat split; [|by right|done].
    symmetry. apply Z.div_small. lia.
  - rewrite decide_True by (simpl; lia).
    eexists. split; [done|]. simpl. rewrite Hd, length_app. simpl.
    split; [|split].
    + apply (Z.div_unique_pos _ _ _ (Z.of_nat (length last))); simpl in *; lia.
    + split; [done|]. intros [?|El]; [lia|].
      rewrite El in Hll. simpl in Hll. lia.
    + intros i c Hi.
      destruct (decide (i < length chunks)) as [Hlt|Hge].
      * rewrite decide_False by lia. rewrite lookup_app_l in Hi by done.
        by apply (Forall_lookup_1 _ _ _ _ Hall) in Hi as [_ ?].
      * rewrite lookup_app_r in Hi by lia.
        destruct (i - length chunks) as [|k] eqn:Ek; [|by destruct k].
        simplify_eq/=. by rewrite decide_True by lia.
Qed.

(** ** Map and MapIndexed *)

Section MapFacts.
Context {T R : Type}.
Implicit Types (l sp : list T) (done rest spr : list R).

Lemma Map_loop_fmap (f : T → R) sp spr l2 : ∀ l1 done rest,
  length done = length l1 → length rest = length l2 →
  Map_loop (length l2) (Z.of_nat (length l1)) (Slice (l1 ++ l2) sp) f
    (Slice (done ++ rest) spr)
  = Ok (Slice (done ++ (f <$> l2)) spr).
Proof.
  induction l2 as [|x l2 IH]; intros l1 done rest Hd Hr.
  - destruct rest; [done|simpl in Hr; lia].
  - destruct rest as [|z rest]; [simpl in Hr; lia|].
    cbn [Map_loop length].
    rewrite (index_at _ l1 l2 sp x) by done. simpl.
    rewrite (assign_at _ done rest spr z (f x)) by (done || lia). simpl.
    replace (Z.of_nat (length l1) + 1)%Z
      with (Z.of_nat (length (l1 ++ [x]))) by list_pos.
    replace (l1 ++ x :: l2) with ((l1 ++ [x]) ++ l2) by list_pos.
    replace (done ++ f x :: rest) with ((done ++ [f x]) ++ rest) by list_pos.
    rewrite IH by (simpl in Hr; list_pos).
    do 2 f_equal. by list_pos.
Qed.

Lemma Map_fmap `{!ZeroValue R} (s : goslice T) (f : T → R) :
  Map s f = Ok (Slice (f <$> elems s) []).
Proof.
  destruct s as [l sp]. unfold Map, make_len. simpl.
  pose proof (Map_loop_fmap f sp [] l [] [] (replicate (length l) zero)
                eq_refl) as E.
  simpl in E. change (Z.of_nat 0) with 0%Z in E.
  by rewrite E by (by rewrite length_replicate).
Qed.

Lemma MapIndexed_loop_imap (f : Z → T → R) sp spr l2 : ∀ l1 done rest,
  length done = length l1 → length rest = length l2 →
  MapIndexed_loop (length l2) (Z.of_nat (length l1)) (Slice (l1 ++ l2) sp) f
    (Slice (done ++ rest) spr)
  = Ok (Slice (done ++ imap (λ j, f (Z.of_nat (length l1 + j))) l2) spr).
Proof.
  induction l2 as [|x l2 IH]; intros l1 done rest Hd Hr.
  - destruct rest; [done|simpl in Hr; lia].
  - destruct rest as [|z rest]; [simpl in Hr; lia|].
    cbn [MapIndexed_loop length].
    rewrite (index_at _ l1 l2 sp x) by done. simpl.
    rewrite (assign_at _ done rest spr z (f (Z.of_nat (length l1)) x))
      by (done || lia).
    simpl.
    replace (Z.of_nat (length l1) + 1)%Z
      with (Z.of_nat (length (l1 ++ [x]))) by list_pos.
    replace (l1 ++ x :: l2) with ((l1 ++ [x]) ++ l2) by list_pos.
    replace (done ++ f (Z.of_nat (length l1)) x :: rest)
      with ((done ++ [f (Z.of_nat (length l1)) x]) ++ rest) by list_pos.
    rewrite IH by (simpl in Hr; list_pos).
    do 2 f_equal. rewrite <- app_assoc. simpl. rewrite Nat.add_0_r.
    do 2 f_equal. apply imap_ext. intros j y _. simpl. f_equal.
    rewrite length_app. simpl. lia.
Qed.

Lemma MapIndexed_imap `{!ZeroValue R} (s : goslice T) (f : Z → T → R) :
  MapIndexed s f = Ok (Slice (imap (λ j, f (Z.of_nat j)) (elems s)) []).
Proof.
  destruct s as [l sp]. unfold MapIndexed, make_len. simpl.
  pose proof (MapIndexed_loop_imap f sp [] l [] [] (replicate (length l) zero)
                eq_refl) as E.
  simpl in E. change (Z.of_nat 0) with 0%Z in E.
  by rewrite E by (by rewrite length_replicate).
Qed.
End MapFacts.

(** X9.  Map never panics and returns a new slice of the length of the input
    whose element at every index [i] is [f] of the input's element at [i];
    the new slice has no spare capacity. *)
Theorem Map_elementwise {T R : Type} `{!ZeroValue R}
    (s : goslice T) (f : T → R) :
  ∃ r, Map s f = Ok r
    ∧ length (elems r) = length (elems s)
    ∧ (∀ i x, elems s !! i = Some x → elems r !! i = Some (f x))
    ∧ spare r = [].
Proof.
  eexists. split; [apply Map_fmap|]. simpl.
  split; [apply length_fmap|]. split; [|done].
  intros i x Hi. by rewrite list_lookup_fmap, Hi.
Qed.

(** X10.  Maps compose: mapping [f] and then [g] gives the slice that mapping
    "[g] after [f]" gives. *)
Theorem Map_Map {T R Q : Type} `{!ZeroValue R} `{!ZeroValue Q}
    (s : goslice T) (f : T → R) (g : R → Q) :
  Map s f ≫= (λ r, Map r g) = Map s (λ x, g (f x)).
Proof.
  rewrite (Map_fmap s f). simpl. rewrite !Map_fmap. simpl.
  by rewrite <- list_fmap_compose.
Qed.

(** X11.  MapIndexed never panics and returns a new slice of the length of the
    input whose element at index [i] is [f i] of the input's element at [i];
    when [f] ignores the index the result is that of Map. *)
Theorem MapIndexed_elementwise {T R : Type} `{!ZeroValue R}
    (s : goslice T) (f : Z → T → R) (g : T → R) :
  (∃ r, MapIndexed s f = Ok r
     ∧ length (elems r) = length (elems s)
     ∧ (∀ i x, elems s !! i = Some x →
          elems r !! i = Some (f (Z.of_nat i) x))
     ∧ spare r = [])
  ∧ MapIndexed s (λ _, g) = Map s g.
Proof.
  split.
  - eexists. split; [apply MapIndexed_imap|]. simpl.
    split; [apply length_imap|]. split; [|done].
    intros i x Hi. by rewrite list_lookup_imap, Hi.
  - rewrite MapIndexed_imap, Map_fmap. do 2 f_equal.
    induction (elems s) as [|x l IH]; [done|]. simpl. by f_equal.
Qed.

Lemma fold_left_fmap {T R A : Type} (f : T → R) (g : A → R → A) (l : list T) :
  ∀ a, fold_left g (f <$> l) a = fold_left (λ acc x, g acc (f x)) l a.
Proof. induction l as [|x l IH]; intros a; [done|]. simpl. apply IH. Qed.

(** X12.  Reducing a mapped slice is reducing the slice itself with [f]
    applied to each element on its way into the accumulator. *)
Theorem Map_Reduce {T R A : Type} `{!ZeroValue R}
    (s : goslice T) (f : T → R) (initial : A) (g : A → R → A) :
  Map s f ≫= (λ r, Reduce r initial g)
  = Reduce s initial (λ acc x, g acc (f x)).
Proof.
  rewrite Map_fmap. simpl. rewrite !Reduce_fold. simpl.
  by rewrite fold_left_fmap.
Qed.

(** ** Filter, Any, All *)

Lemma List_filter_sublist {T : Type} (pred : T → bool) (l : list T) :
  List.filter pred l `sublist_of` l.
Proof.
  induction l as [|x l IH]; simpl; [constructor|].
  destruct (pred x); by constructor.
Qed.

(** X13.  Filter never panics and returns, in a new slice, exactly the
    elements that satisfy [pred], in their order: every element of the result
    satisfies [pred], every element of the input that does is in the result,
    and the result is a subsequence of the input.  Its capacity is the length
    of the input, whatever the growth policy of [append]. *)
Theorem Filter_matching_in_order {T : Type} `{!ZeroValue T}
    (grow : nat → nat) (s : goslice T) (pred : T → bool) :
  ∃ r, Filter grow s pred = Ok r
    ∧ elems r = List.filter pred (elems s)
    ∧ Forall (λ x, pred x = true) (elems r)
    ∧ (∀ x, x ∈ elems s → pred x = true → x ∈ elems r)
    ∧ elems r `sublist_of` elems s
    ∧ cap r = len s.
Proof.
  eexists. split; [apply Filter_filter|]. simpl. split; [done|].
  split; [|split; [|split]].
  - apply Forall_forall. intros x. rewrite list_elem_of_In, List.filter_In.
    by intros [_ ?].
  - intros x Hx Hp. rewrite list_elem_of_In, List.filter_In.
    by rewrite <- list_elem_of_In.
  - apply List_filter_sublist.
  - unfold cap, len, backing. simpl.
    pose proof (List.filter_length_le pred (elems s)).
    rewrite length_app, length_replicate. lia.
Qed.

Lemma List_filter_filter {T : Type} (p q : T → bool) (l : list T) :
  List.filter q (List.filter p l) = List.filter (λ x, p x && q x) l.
Proof.
  induction l as [|x l IH]; [done|]. simpl.
  destruct (p x) eqn:Hp; simpl; [|done]. destruct (q x); by rewrite IH.
Qed.

(** X14.  Filters compose: filtering by [p] and then by [q] returns the
    elements that filtering once by "[p] and [q]" returns. *)
Theorem Filter_Filter {T : Type} `{!ZeroValue T}
    (grow : nat → nat) (s : goslice T) (p q : T → bool) :
  ∃ r1 r2 r,
    Filter grow s p = Ok r1
    ∧ Filter grow r1 q = Ok r2
    ∧ Filter grow s (λ x, p x && q x) = Ok r
    ∧ elems r2 = elems r.
Proof.
  do 3 eexists. split; [apply Filter_filter|].
  split; [apply Filter_filter|]. split; [apply Filter_filter|].
  simpl. apply List_filter_filter.
Qed.

Section AnyAllFacts.
Context {T : Type}.
Implicit Types (l sp : list T) (pred : T → bool).

Lemma existsb_none pred l :
  Forall (λ x, pred x = false) l → existsb pred l = false.
Proof. induction 1 as [|x l Hx _ IH]; [done|]. simpl. by rewrite Hx. Qed.

Lemma Any_existsb (s : goslice T) pred :
  Any s pred = Ok (existsb pred (elems s)).
Proof.
  destruct s as [l sp]. unfold Any, ContainsFunc, IndexFunc. simpl.
  destruct (first_match pred l) as [Hnone|(a & v & b & -> & Ha & Hv)].
  - pose proof (IndexFunc_loop_none pred sp l [] Hnone) as E.
    simpl in E. change (Z.of_nat 0) with 0%Z in E. rewrite E. simpl.
    by rewrite existsb_none.
  - pose proof (IndexFunc_loop_first pred sp a v b [] Ha Hv) as E.
    simpl in E. change (Z.of_nat 0) with 0%Z in E. rewrite E. simpl.
    rewrite bool_decide_eq_true_2 by lia.
    rewrite existsb_app. simpl. rewrite Hv. by rewrite orb_true_r.
Qed.

Lemma All_loop_forallb pred sp l2 : ∀ l1,
  All_loop (length l2) (Z.of_nat (length l1)) (Slice (l1 ++ l2) sp) pred
  = Ok (if forallb pred l2 then None else Some false).
Proof.
  induction l2 as [|x l2 IH]; intros l1; [done|].
  cbn [All_loop length forallb].
  rewrite (index_at _ l1 l2 sp x) by done. simpl.
  destruct (pred x); [|done]. simpl.
  replace (Z.of_nat (length l1) + 1)%Z
    with (Z.of_nat (length (l1 ++ [x]))) by list_pos.
  replace (l1 ++ x :: l2) with ((l1 ++ [x]) ++ l2) by list_pos.
  apply IH.
Qed.

Lemma All_forallb (s : goslice T) pred :
  All s pred = Ok (forallb pred (elems s)).
Proof.
  destruct s as [l sp]. unfold All. simpl.
  pose proof (All_loop_forallb pred sp l []) as E.
  simpl in E. change (Z.of_nat 0) with 0%Z in E. rewrite E.
  by destruct (forallb pred l).
Qed.
End AnyAllFacts.

(** X15.  Any never panics and returns [true] exactly when some element of
    the slice satisfies [pred]; on the empty slice it returns [false]. *)
Theorem Any_iff_exists {T : Type} (s : goslice T) (pred : T → bool) :
  ∃ b, Any s pred = Ok b
    ∧ (b = true ↔ ∃ x, x ∈ elems s ∧ pred x = true)
    ∧ (elems s = [] → b = false).
Proof.
  eexists. split; [apply Any_existsb|]. split.
  - rewrite existsb_exists. by setoid_rewrite list_elem_of_In.
  - by intros ->.
Qed.

(** X16.  All never panics and returns [true] exactly when every element of
    the slice satisfies [pred]; on the empty slice it returns [true]. *)
Theorem All_iff_forall {T : Type} (s : goslice T) (pred : T → bool) :
  ∃ b, All s pred = Ok b
    ∧ (b = true ↔ ∀ x, x ∈ elems s → pred x = true)
    ∧ (elems s = [] → b = true).
Proof.
  eexists. split; [apply All_forallb|]. split.
  - rewrite forallb_forall. by setoid_rewrite list_elem_of_In.
  - by intros ->.
Qed.

(** X17.  Any and All are dual on every slice, the empty one included:
    [Any(s, pred)] is the negation of [All(s, not pred)]. *)
Theorem Any_All_dual {T : Type} (s : goslice T) (pred : T → bool) :
  ∃ b, Any s pred = Ok b ∧ All s (λ x, negb (pred x)) = Ok (negb b).
Proof.
  eexists. split; [apply Any_existsb|]. rewrite All_forallb. f_equal.
  induction (elems s) as [|x l IH]; [done|]. simpl.
  rewrite IH. by destruct (pred x), (existsb pred l).
Qed.

Lemma find_existsb {T : Type} (pred : T → bool) (l : list T) :
  existsb pred l = bool_decide (is_Some (find pred l)).
Proof.
  induction l as [|x l IH]; simpl; [done|]. by destruct (pred x).
Qed.

(** X18.  First finds an element exactly when Any says there is one: the
    flag First returns is the result of Any; when it is [true] the element
    returned is in the slice and satisfies [pred], when it is [false] the
    element returned is the zero value. *)
Theorem First_found_iff_Any {T : Type} `{!ZeroValue T}
    (s : goslice T) (pred : T → bool) :
  ∃ x found,
    First s pred = Ok (x, found)
    ∧ Any s pred = Ok found
    ∧ (found = true → x ∈ elems s ∧ pred x = true)
    ∧ (found = false → x = zero).
Proof.
  rewrite First_find, Any_existsb, find_existsb.
  destruct (find pred (elems s)) as [x|] eqn:E.
  - exists x, true. rewrite bool_decide_eq_true_2 by eauto.
    repeat split; try done.
    + apply list_elem_of_In. by apply (List.find_some _ _ E).
    + by apply (List.find_some _ _ E).
  - exists zero, false. rewrite bool_decide_eq_false_2 by (by intros [? ?]).
    by repeat split.
Qed.

(** ** FilterInPlace *)

Section FilterInPlaceFacts.
Context {T : Type} `{!ZeroValue T}.
Implicit Types (out mid suf g z res sp : list T) (f : T → bool).

Lemma rewindow_split (s : goslice T) (n : nat) e r :
  n = length e → backing s = e ++ r → rewindow n s = Slice e r.
Proof.
  intros -> E. unfold rewindow.
  by rewrite E, take_app_length, drop_app_length.
Qed.

(** The filtering loop never moves [b]: [b] holds what is kept so far on the
    array of [a], whose cells from [i] on are still to be read. *)
Lemma FilterInPlace_loop_kept grow f sp suf : ∀ out mid (i : Z),
  i = Z.of_nat (length out + length mid) →
  ∃ g,
    length (List.filter f suf ++ g) = length (mid ++ suf)
    ∧ FilterInPlace_loop grow (length suf) i
        (Slice (out ++ mid ++ suf) sp) (Slice out (mid ++ suf ++ sp)) true f
      = Ok (Slice (out ++ List.filter f suf ++ g) sp,
            Slice (out ++ List.filter f suf) (g ++ sp), true).
Proof.
  induction suf as [|x suf IH]; intros out mid i Hi.
  - exists mid. simpl. by rewrite !app_nil_r.
  - cbn [FilterInPlace_loop length List.filter].
    rewrite (index_at _ (out ++ mid) suf sp x i) by list_pos. simpl.
    destruct (f x) eqn:Hx.
    + assert (append_aliased grow (Slice (out ++ mid ++ x :: suf) sp)
                (Slice out (mid ++ x :: suf ++ sp)) true x
              = (Slice ((out ++ [x]) ++ (tail (mid ++ [x])) ++ suf) sp,
                 Slice (out ++ [x]) ((tail (mid ++ [x])) ++ suf ++ sp),
                 true)) as ->.
      { unfold append_aliased, append. destruct mid as [|m mid]; simpl.
        - do 2 f_equal; try (by list_pos).
          apply rewindow_split; [|unfold backing; simpl]; by list_pos.
        - do 2 f_equal; try (by list_pos).
          apply rewindow_split; [|unfold backing; simpl]; by list_pos. }
      destruct (IH (out ++ [x]) (tail (mid ++ [x])) (i + 1)%Z)
        as (g & Hg & E).
      { destruct mid; simpl in *; list_pos. }
      exists g. split.
      { revert Hg. destruct mid; list_pos. }
      rewrite E.
      replace ((out ++ [x]) ++ List.filter f suf ++ g)
        with (out ++ (x :: List.filter f suf) ++ g) by list_pos.
      by replace ((out ++ [x]) ++ List.filter f suf)
        with (out ++ x :: List.filter f suf) by list_pos.
    + destruct (IH out (mid ++ [x]) (i + 1)%Z) as (g & Hg & E);
        [list_pos|].
      exists g. split; [revert Hg; list_pos|].
      revert E. by list_pos.
Qed.

Lemma FilterInPlace_clear_unfold fuel (i : Z) (a b : goslice T) shared :
  FilterInPlace_clear fuel i a b shared =
  if decide (i < len a)%Z then
    match fuel with
    | O => OutOfFuel
    | S fuel =>
        a ← assign a i zero;
        FilterInPlace_clear fuel (i + 1) a
          (if shared then rewindow (length (elems b)) a else b) shared
    end
  else Ok (a, b).
Proof. by destruct fuel. Qed.

(** The clearing loop writes through [a]; [b], on the same array, sees the
    zeroes in its spare cells. *)
Lemma FilterInPlace_clear_zeroes sp fuel : ∀ g z res (i : Z),
  length g ≤ fuel → i = Z.of_nat (length res + length z) →
  FilterInPlace_clear fuel i (Slice (res ++ z ++ g) sp)
    (Slice res (z ++ g ++ sp)) true
  = Ok (Slice (res ++ z ++ replicate (length g) zero) sp,
        Slice res (z ++ replicate (length g) zero ++ sp)).
Proof.
  induction fuel as [|fuel IH]; intros g z res i Hfuel Hi;
    rewrite FilterInPlace_clear_unfold, len_Slice.
  - destruct g; [|simpl in Hfuel; lia].
    by rewrite decide_False by list_pos.
  - destruct g as [|x g]; [by rewrite decide_False by list_pos|].
    rewrite decide_True by list_pos.
    rewrite (assign_at _ (res ++ z) g sp x zero i) by list_pos. simpl.
    rewrite (rewindow_split _ _ res ((z ++ [zero]) ++ g ++ sp))
      by (done || (unfold backing; simpl; list_pos)).
    replace ((res ++ z) ++ zero :: g) with (res ++ (z ++ [zero]) ++ g)
      by list_pos.
    rewrite (IH g (z ++ [zero]) res) by (simpl in Hfuel; list_pos).
    simpl. by rewrite <- !app_assoc.
Qed.

Lemma FilterInPlace_filter grow (a : goslice T) f :
  FilterInPlace grow a f
  = Ok (Slice (List.filter f (elems a))
              (replicate (length (elems a)
                          - length (List.filter f (elems a))) zero
               ++ spare a)).
Proof.
  destruct a as [l sp]. unfold FilterInPlace.
  pose proof (reslice_prefix (Slice l sp) 0 (Nat.le_0_l _)) as E0.
  change (Z.of_nat 0) with 0%Z in E0. rewrite E0. simpl.
  rewrite take_0, drop_0.
  destruct (FilterInPlace_loop_kept grow f sp l [] [] 0 eq_refl)
    as (g & Hg & E).
  cbn [app] in E, Hg. rewrite E. simpl.
  pose proof (FilterInPlace_clear_zeroes sp (length (List.filter f l ++ g))
                g [] (List.filter f l)
                (Z.of_nat (length (List.filter f l)))) as E2.
  cbn [app] in E2. rewrite len_Slice, E2.
  - simpl. rewrite length_app in Hg.
    by replace (length l - length (List.filter f l)) with (length g) by lia.
  - rewrite length_app. lia.
  - simpl. lia.
Qed.
End FilterInPlaceFacts.

(** X19.  FilterInPlace never panics and returns the values that Filter
    returns, on the array of the input: [append] never has to move the
    result, the capacity is that of the input, and behind the kept values the
    array holds a zero for every value dropped, followed by the cells that
    were beyond the slice. *)
Theorem FilterInPlace_same_values_in_place {T : Type} `{!ZeroValue T}
    (grow : nat → nat) (a : goslice T) (f : T → bool) :
  ∃ r r',
    FilterInPlace grow a f = Ok r
    ∧ Filter grow a f = Ok r'
    ∧ elems r = elems r'
    ∧ backing r
      = elems r ++ replicate (length (elems a) - length (elems r)) zero
          ++ spare a
    ∧ cap r = cap a.
Proof.
  do 2 eexists. split; [apply FilterInPlace_filter|].
  split; [apply Filter_filter|]. simpl. split; [done|]. split; [done|].
  unfold cap, backing. simpl.
  pose proof (List.filter_length_le f (elems a)).
  rewrite !length_app, length_replicate. lia.
Qed.

(** ** Shuffle *)

Section ShuffleFacts.
Context {T : Type}.
Implicit Types (l : list T) (a : goslice T).

Lemma insert_head_Permutation l : ∀ j y v,
  l !! j = Some y → y :: <[j := v]> l ≡ₚ v :: l.
Proof.
  induction l as [|b l IH]; intros j y v Hj; [done|].
  destruct j as [|j]; simpl in *.
  - injection Hj as ->. apply perm_swap.
  - rewrite (perm_swap b y), (IH j y v Hj). apply perm_swap.
Qed.

(** Exchanging two cells of a list permutes it. *)
Lemma swap_Permutation l : ∀ i j x y,
  l !! i = Some x → l !! j = Some y →
  <[j := x]> (<[i := y]> l) ≡ₚ l.
Proof.
  induction l as [|b l IH]; intros i j x y Hi Hj; [done|].
  destruct i as [|i], j as [|j]; simpl in *.
  - by simplify_eq.
  - injection Hi as ->. by apply insert_head_Permutation.
  - injection Hj as ->. by apply insert_head_Permutation.
  - f_equiv. by apply IH.
Qed.

Lemma Shuffle_loop_unfold draw fuel k (i : Z) a :
  Shuffle_loop draw fuel k i a =
  if decide (i > 0)%Z then
    match fuel with
    | O => OutOfFuel
    | S fuel =>
        j ← Intn draw k (i + 1);
        y ← index a j; x ← index a i;
        a ← assign a i y; a ← assign a j x;
        Shuffle_loop draw fuel (S k) (i - 1) a
    end
  else Ok a.
Proof. by destruct fuel. Qed.

Lemma Shuffle_loop_Permutation draw :
  (∀ k n, (0 < n)%Z → (0 ≤ draw k n < n)%Z) →
  ∀ fuel k (i : Z) a,
    (i < len a)%Z → (i ≤ Z.of_nat fuel)%Z →
    ∃ a', Shuffle_loop draw fuel k i a = Ok a'
      ∧ elems a' ≡ₚ elems a ∧ spare a' = spare a.
Proof.
  intros Hdraw. induction fuel as [|fuel IH]; intros k i a Hi Hfuel;
    rewrite Shuffle_loop_unfold.
  - rewrite decide_False by lia. by exists a.
  - destruct (decide (i > 0)%Z) as [Hpos|Hneg]; [|by exists a].
    unfold Intn. rewrite decide_False by lia. simpl.
    pose proof (Hdraw k (i + 1)%Z ltac:(lia)) as Hj.
    set (j := draw k (i + 1)%Z) in *.
    destruct a as [e sp]. rewrite len_Slice in Hi.
    destruct (lookup_lt_is_Some_2 e (Z.to_nat j) ltac:(lia)) as [y Hy].
    destruct (lookup_lt_is_Some_2 e (Z.to_nat i) ltac:(lia)) as [x Hx].
    rewrite <- (Z2Nat.id j), <- (Z2Nat.id i) by lia.
    rewrite (index_Ok _ (Z.to_nat j) y), (index_Ok _ (Z.to_nat i) x) by done.
    simpl.
    rewrite (assign_Ok _ (Z.to_nat i)) by (simpl; lia). simpl.
    rewrite (assign_Ok _ (Z.to_nat j))
      by (simpl; rewrite length_insert; lia).
    simpl.
    destruct (IH (S k) (Z.of_nat (Z.to_nat i) - 1)%Z
                (Slice (<[Z.to_nat j := x]> (<[Z.to_nat i := y]> e)) sp))
      as (a' & E & Hp & Hs).
    { rewrite len_Slice, !length_insert. lia. }
    { lia. }
    exists a'. split; [done|]. split; [|done].
    rewrite Hp. simpl. by apply swap_Permutation.
Qed.
End ShuffleFacts.

(** X20.  Given answers of [rand.Intn(n)] that lie in [[0, n)], Shuffle never
    panics and leaves in the slice a permutation of its elements: the same
    values with the same multiplicities, the same length, and the cells
    beyond the length untouched.  A slice of at most one element is left as
    it is. *)
Theorem Shuffle_permutes {T : Type} (draw : nat → Z → Z) (a : goslice T) :
  (∀ k n, (0 < n)%Z → (0 ≤ draw k n < n)%Z) →
  ∃ a', Shuffle draw a = Ok a'
    ∧ elems a' ≡ₚ elems a
    ∧ length (elems a') = length (elems a)
    ∧ spare a' = spare a
    ∧ (length (elems a) ≤ 1 → a' = a).
Proof.
  intros Hdraw. unfold Shuffle.
  destruct (Shuffle_loop_Permutation draw Hdraw (length (elems a)) 0
              (len a - 1)%Z a) as (a' & E & Hp & Hs);
    [lia | unfold len; lia |].
  exists a'. split; [done|]. split; [done|].
  split; [by rewrite Hp|]. split; [done|].
  intros Hlen. rewrite Shuffle_loop_unfold in E.
  rewrite decide_False in E by (unfold len; lia). congruence.
Qed.

Lemma Shuffle_permutes_witness :
  (∀ (k : nat) (n : Z), (0 < n)%Z → (0 ≤ 0 < n)%Z)
  ∧ ∃ a', Shuffle (λ _ _, 0%Z) (Slice [1; 2; 3]%Z []) = Ok a'
      ∧ elems a' ≡ₚ [1; 2; 3]%Z
      ∧ length (elems a') = 3
      ∧ spare a' = []
      ∧ (3 ≤ 1 → a' = Slice [1; 2; 3]%Z []).
Proof.
  split; [intros k n Hn; lia|].
  apply (Shuffle_permutes (λ _ _, 0%Z) (Slice [1; 2; 3]%Z [])).
  intros k n Hn. lia.
Defined.

(** ** First and Filter *)

Lemma find_head_filter {T : Type} (pred : T → bool) (l : list T) :
  find pred l = head (List.filter pred l).
Proof.
  induction l as [|x l IH]; [done|]. simpl. by destruct (pred x).
Qed.

(** X21.  First returns the first element of what Filter returns for the
    same predicate, with [true]; when Filter returns nothing, First returns
    the zero value with [false]. *)
Theorem First_is_head_of_Filter {T : Type} `{!ZeroValue T}
    (grow : nat → nat) (s : goslice T) (pred : T → bool) :
  ∃ r, Filter grow s pred = Ok r
    ∧ First s pred = Ok (match elems r with
                         | x :: _ => (x, true)
                         | [] => (zero, false)
                         end).
Proof.
  eexists. split; [apply Filter_filter|]. simpl.
  rewrite First_find, find_head_filter.
  by destruct (List.filter pred (elems s)).
Qed.
